(** * protorand: random population of protobuf messages from a descriptor

    A shallow embedding of [rand.go] (package [protorand]) and the
    properties of its generator.  The Go code works against three
    libraries that it only consumes through their interfaces:

    - [math/rand]: the methods of [*rand.Rand] that the code calls, kept
      abstract in the class [RandSource] with their documented ranges;
    - [protoreflect]: the descriptor interfaces ([MessageDescriptor],
      [FieldDescriptor], [OneofDescriptor], [EnumValueDescriptor]), kept
      abstract in the class [ProtoReflect];
    - [dynamicpb]: the generic message, a map from field number to value.

    The receiver [p *ProtoRand] is mutable state: every function of the
    package is a computation in the monad [M], which threads [p] and
    distinguishes a normal return, a returned [error] and a Go panic. *)

From Stdlib Require Import ZArith Lia Ascii String.
From stdpp Require Import base option list gmap strings countable.

Local Open Scope Z_scope.

(** ** protoreflect.Kind *)

Inductive Kind : Type :=
  | BoolKind | EnumKind | Int32Kind | Sint32Kind | Uint32Kind
  | Int64Kind | Sint64Kind | Uint64Kind | Sfixed32Kind | Fixed32Kind
  | FloatKind | Sfixed64Kind | Fixed64Kind | DoubleKind
  | StringKind | BytesKind | MessageKind | GroupKind.

#[global] Instance Kind_eq_dec : EqDecision Kind.
Proof. solve_decision. Defined.

(** ** math/rand: the methods of [*rand.Rand] used by the package

    [NewSource seed] stands for [rand.New(rand.NewSource(seed))].  Every
    draw returns its value and the advanced generator.  [Float32] and
    [Float64] return the IEEE-754 bit pattern of the drawn number.  The
    range laws are the ones [math/rand] documents: [Int31] and [Int63]
    are non-negative, [Intn n] lies in [[0,n)] for [n > 0] (the panic of
    [Intn] on [n <= 0] is written out in [randIntn] below). *)

Class RandSource : Type := {
  Rand : Type;
  NewSource : Z → Rand;
  Int31 : Rand → Z * Rand;
  Int63 : Rand → Z * Rand;
  Uint32 : Rand → Z * Rand;
  Uint64 : Rand → Z * Rand;
  Float32 : Rand → Z * Rand;
  Float64 : Rand → Z * Rand;
  Intn : Z → Rand → Z * Rand;
  Int31_range : ∀ r, 0 ≤ (Int31 r).1 < 2 ^ 31;
  Int63_range : ∀ r, 0 ≤ (Int63 r).1 < 2 ^ 63;
  Uint32_range : ∀ r, 0 ≤ (Uint32 r).1 < 2 ^ 32;
  Uint64_range : ∀ r, 0 ≤ (Uint64 r).1 < 2 ^ 64;
  Intn_range : ∀ n r, 0 < n → 0 ≤ (Intn n r).1 < n;
}.

(** ** protoreflect: the descriptor interfaces

    Only the methods that [rand.go] calls.  Descriptors are abstract
    handles, so a schema may refer to itself: [fd_Message] of a field of
    message [m] may be [m] again.  [fd_ContainingOneof] is [None] for
    Go's [nil].  [fd_Enum], [fd_Message], [fd_MapKey] and [fd_MapValue]
    are consulted by the code only under the guards ([EnumKind],
    [MessageKind], [IsMap]) under which protoreflect returns non-nil.

    The element type of [fd_Enum_Values] stands for
    [fd.Enum().Values()]. *)

Class ProtoReflect : Type := {
  MessageDescriptor : Type;
  FieldDescriptor : Type;
  OneofDescriptor : Type;
  EnumValueDescriptor : Type;
  md_Fields : MessageDescriptor → list FieldDescriptor;
  md_Oneofs : MessageDescriptor → list OneofDescriptor;
  fd_Number : FieldDescriptor → Z;
  fd_Kind : FieldDescriptor → Kind;
  fd_IsList : FieldDescriptor → bool;
  fd_IsMap : FieldDescriptor → bool;
  fd_MapKey : FieldDescriptor → FieldDescriptor;
  fd_MapValue : FieldDescriptor → FieldDescriptor;
  fd_ContainingOneof : FieldDescriptor → option OneofDescriptor;
  fd_Enum_Values : FieldDescriptor → list EnumValueDescriptor;
  fd_Message : FieldDescriptor → MessageDescriptor;
  od_Name : OneofDescriptor → string;
  od_Fields : OneofDescriptor → list FieldDescriptor;
  ev_Number : EnumValueDescriptor → Z;
}.

(** ** protoreflect.Value and dynamicpb.Message

    A [protoreflect.Value] is a tagged union.  A [protoreflect.MapKey]
    is a [Value] used as the key of a Go map, so it has to be one Go can
    hash: the scalars.  A [dynamicpb.Message] is its descriptor and the
    map [known] from field number to value. *)

Inductive MapKey : Type :=
  | MapKeyBool (b : bool)
  | MapKeyInt32 (v : Z)
  | MapKeyInt64 (v : Z)
  | MapKeyUint32 (v : Z)
  | MapKeyUint64 (v : Z)
  | MapKeyFloat32 (bits : Z)
  | MapKeyFloat64 (bits : Z)
  | MapKeyString (s : string)
  | MapKeyEnum (n : Z).

#[global] Instance MapKey_eq_dec : EqDecision MapKey.
Proof. solve_decision. Defined.

#[global] Instance MapKey_countable : Countable MapKey.
Proof.
  refine (inj_countable'
    (λ k, match k with
          | MapKeyBool b => inl b
          | MapKeyInt32 v => inr (inl (0, v))
          | MapKeyInt64 v => inr (inl (1, v))
          | MapKeyUint32 v => inr (inl (2, v))
          | MapKeyUint64 v => inr (inl (3, v))
          | MapKeyFloat32 v => inr (inl (4, v))
          | MapKeyFloat64 v => inr (inl (5, v))
          | MapKeyEnum v => inr (inl (6, v))
          | MapKeyString s => inr (inr s)
          end)
    (λ e, match e with
          | inl b => MapKeyBool b
          | inr (inl (0, v)) => MapKeyInt32 v
          | inr (inl (1, v)) => MapKeyInt64 v
          | inr (inl (2, v)) => MapKeyUint32 v
          | inr (inl (3, v)) => MapKeyUint64 v
          | inr (inl (4, v)) => MapKeyFloat32 v
          | inr (inl (5, v)) => MapKeyFloat64 v
          | inr (inl (_, v)) => MapKeyEnum v
          | inr (inr s) => MapKeyString s
          end) _).
  by intros [].
Defined.

#[warnings="-register-all"]
Inductive GenericValue (MD : Type) : Type :=
  | ValueOfBool (b : bool)
  | ValueOfInt32 (v : Z)
  | ValueOfInt64 (v : Z)
  | ValueOfUint32 (v : Z)
  | ValueOfUint64 (v : Z)
  | ValueOfFloat32 (bits : Z)
  | ValueOfFloat64 (bits : Z)
  | ValueOfString (s : string)
  | ValueOfBytes (b : list Byte.byte)
  | ValueOfEnum (n : Z)
  | ValueOfMessage (m : GenericMessage MD)
  | ValueOfList (l : list (GenericValue MD))
  | ValueOfMap (mp : gmap MapKey (GenericValue MD))
with GenericMessage (MD : Type) : Type :=
  | mkMessage (typ : MD) (known : gmap Z (GenericValue MD)).

Arguments ValueOfBool {MD} b.
Arguments ValueOfInt32 {MD} v.
Arguments ValueOfInt64 {MD} v.
Arguments ValueOfUint32 {MD} v.
Arguments ValueOfUint64 {MD} v.
Arguments ValueOfFloat32 {MD} bits.
Arguments ValueOfFloat64 {MD} bits.
Arguments ValueOfString {MD} s.
Arguments ValueOfBytes {MD} b.
Arguments ValueOfEnum {MD} n.
Arguments ValueOfMessage {MD} m.
Arguments ValueOfList {MD} l.
Arguments ValueOfMap {MD} mp.
Arguments mkMessage {MD} typ known.

Section Values.
Context `{ProtoReflect}.

Definition Value : Type := GenericValue MessageDescriptor.

Definition Message : Type := GenericMessage MessageDescriptor.

Definition typ (m : Message) : MessageDescriptor :=
  match m with mkMessage t _ => t end.

Definition known (m : Message) : gmap Z Value :=
  match m with mkMessage _ k => k end.

(** [dynamicpb.NewMessage]: the empty instance of a message type. *)
Definition NewMessage (mds : MessageDescriptor) : Message := mkMessage mds ∅.

(** [m.Has(fd)] for a field with explicit presence, as the members of a
    oneof are: the field is populated when a value is stored for it. *)
Definition Has (m : Message) (fd : FieldDescriptor) : Prop :=
  is_Some (known m !! fd_Number fd).

End Values.

(** The caller's concrete [proto.Message] type that [Gen] converts to:
    [in.ProtoReflect().Descriptor()], [reflect.New] of the Go type of
    [in], and [proto.Merge]. *)

Class GoMessages `{ProtoReflect} : Type := {
  GoMessage : Type;
  gm_Descriptor : GoMessage → MessageDescriptor;
  gm_New : GoMessage → GoMessage;
  gm_Merge : GoMessage → Message → GoMessage;
}.

(** ** Results and the generator monad *)

(** The one error the package returns:
    [fmt.Errorf("unexpected type: %v", fd.Kind())]. *)
Inductive error : Type :=
  | UnsupportedFieldKind (k : Kind).

(** Run-time panics of the libraries: an index outside a descriptor
    list, [Intn] on a non-positive bound, a [Value] read at the wrong
    type ([Value.List], [Value.Map], [MapKey] of an unhashable value),
    the stack exhausted by a recursion that does not end. *)
Inductive panic : Type :=
  | IndexOutOfRange
  | IntnNonPositive
  | TypeMismatch
  | StackOverflow.

Inductive outcome (A : Type) : Type :=
  | Ok (a : A)
  | Err (e : error)
  | Panicked (why : panic).

Arguments Ok {A} a.
Arguments Err {A} e.
Arguments Panicked {A} why.

(** [type ProtoRand struct { rand *rand.Rand }], over the type of the
    generator. *)
Record ProtoRandOf (R : Type) : Type := mkProtoRand { rand : R }.

Arguments mkProtoRand {R} rand.
Arguments rand {R} p.

Section Monad.
Context `{RandSource}.

Definition ProtoRand : Type := ProtoRandOf Rand.

Definition M (A : Type) : Type := ProtoRand → outcome A * ProtoRand.

#[global] Instance M_ret : MRet M := λ A a p, (Ok a, p).

#[global] Instance M_bind : MBind M := λ A B f m p,
  match m p with
  | (Ok a, p') => f a p'
  | (Err e, p') => (Err e, p')
  | (Panicked w, p') => (Panicked w, p')
  end.

#[global] Instance M_fmap : FMap M := λ A B f m, a ← m; mret (f a).

Definition throw {A} (e : error) : M A := λ p, (Err e, p).

Definition gopanic {A} (w : panic) : M A := λ p, (Panicked w, p).

(** One draw from [p.rand], which is advanced in place. *)
Definition draw {A} (f : Rand → A * Rand) : M A := λ p,
  let '(a, r) := f (rand p) in (Ok a, mkProtoRand r).

(** [p.rand.Intn(n)], which panics when [n <= 0]. *)
Definition randIntn (n : Z) : M Z :=
  if decide (n ≤ 0) then gopanic IntnNonPositive else draw (Intn n).

(** [l.Get(i)] and [l[i]]: indexing panics outside [0 <= i < len]. *)
Definition Get {A} (l : list A) (i : Z) : M A :=
  if decide (i < 0) then gopanic IndexOutOfRange
  else match l !! Z.to_nat i with
       | Some x => mret x
       | None => gopanic IndexOutOfRange
       end.

Definition len {A} (l : list A) : Z := Z.of_nat (length l).

(** ** The package *)

Definition MaxDepth : Z := 16.

(** The runes of [Chars] are ASCII, one byte each in a Go string. *)
Definition Chars : list ascii :=
  list_ascii_of_string
    "abcdefghijklmnopqrstuvwxyzABCDEFGHIJKLMNOPQRSTUVWXYZ0123456789".

(** [New], with the clock reading [time.Now().UnixNano()] as input. *)
Definition New (now : Z) : ProtoRand := mkProtoRand (NewSource now).

(** [Seed] replaces the generator; the old one is dropped. *)
Definition Seed (seed : Z) (p : ProtoRand) : ProtoRand :=
  mkProtoRand (NewSource seed).

Definition randInt32 : M Z := draw Int31.

Definition randInt64 : M Z := draw Int63.

Definition randUint32 : M Z := draw Uint32.

Definition randUint64 : M Z := draw Uint64.

Definition randFloat32 : M Z := draw Float32.

Definition randFloat64 : M Z := draw Float64.

(** The loop of [randString]: [b[i] = Chars[p.rand.Intn(len(Chars))]]
    for [i] from [0] up, so the first draw is the first character. *)
Fixpoint randRunes (n : nat) : M (list ascii) :=
  match n with
  | O => mret []
  | S n' =>
      i ← randIntn (len Chars);
      c ← Get Chars i;
      b ← randRunes n';
      mret (c :: b)
  end.

Definition randString : M string :=
  b ← randRunes 10; mret (string_of_list_ascii b).

Definition randBytes : M (list Byte.byte) :=
  s ← randString; mret (list_byte_of_string s).

Definition randBool : M bool :=
  v ← draw Int31; mret (bool_decide (Z.rem v 2 = 0)).

End Monad.

Section Generator.
Context `{RandSource} `{ProtoReflect}.

(** ** dynamicpb: the operations on the message under construction

    [Set] stores a value under the field's number.  [Mutable] returns the
    value already stored under the number or, when there is none, stores
    and returns a fresh empty list, map or message ([NewField]).  The
    list and map returned by [Mutable] are references into the message;
    the code writes the changed collection back with [Set], so the
    functional update and the in-place one agree.  The type checks of
    [Set], [Append] and the clearing of sibling oneof members inside
    [Set] are not modelled: the generator itself decides which member of
    a oneof is set. *)

Definition NewField (fd : FieldDescriptor) : Value :=
  if fd_IsMap fd then ValueOfMap ∅
  else if fd_IsList fd then ValueOfList []
  else ValueOfMessage (NewMessage (fd_Message fd)).

Definition Set_ (dm : Message) (fd : FieldDescriptor) (v : Value) : Message :=
  mkMessage (typ dm) (<[fd_Number fd := v]> (known dm)).

Definition Mutable (dm : Message) (fd : FieldDescriptor) : Value * Message :=
  match known dm !! fd_Number fd with
  | Some v => (v, dm)
  | None => (NewField fd, Set_ dm fd (NewField fd))
  end.

(** [v.List()] *)
Definition Value_List (v : Value) : M (list Value) :=
  match v with
  | ValueOfList l => mret l
  | _ => gopanic TypeMismatch
  end.

(** [v.Map()] *)
Definition Value_Map (v : Value) : M (gmap MapKey Value) :=
  match v with
  | ValueOfMap mp => mret mp
  | _ => gopanic TypeMismatch
  end.

(** [protoreflect.MapKey(key)] as [mp.Set] uses it, as the key of a Go
    map.  Protobuf admits integers, booleans and strings as map keys;
    the other scalars hash as well; a byte slice does not and panics.
    Messages, lists and maps are no key kinds of any descriptor and are
    treated like byte slices. *)
Definition Value_MapKey (v : Value) : M MapKey :=
  match v with
  | ValueOfBool b => mret (MapKeyBool b)
  | ValueOfInt32 z => mret (MapKeyInt32 z)
  | ValueOfInt64 z => mret (MapKeyInt64 z)
  | ValueOfUint32 z => mret (MapKeyUint32 z)
  | ValueOfUint64 z => mret (MapKeyUint64 z)
  | ValueOfFloat32 z => mret (MapKeyFloat32 z)
  | ValueOfFloat64 z => mret (MapKeyFloat64 z)
  | ValueOfString s => mret (MapKeyString s)
  | ValueOfEnum n => mret (MapKeyEnum n)
  | _ => gopanic TypeMismatch
  end.

(** ** Selection among enum values and oneof members *)

Definition chooseEnumValueRandomly (values : list EnumValueDescriptor) : M Z :=
  let ln := len values in
  if decide (ln ≤ 1) then mret 0
  else
    i ← randIntn (ln - 1);
    value ← Get values i;
    mret (ev_Number value).

Definition chooseOneOfFieldRandomly (oneOf : OneofDescriptor) : M FieldDescriptor :=
  let ln := len (od_Fields oneOf) in
  if decide (ln ≤ 1) then Get (od_Fields oneOf) 0
  else
    index ← randIntn ln;
    Get (od_Fields oneOf) index.

(** ** newDynamicProtoRand

    The closure [getRandValue] of the Go function captures [p] and
    [allowedDepth]; the recursive call of [newDynamicProtoRand] is the
    parameter [self], tied below. *)

Definition getRandValue (self : MessageDescriptor → Z → M Message)
    (allowedDepth : Z) (fd : FieldDescriptor) : M Value :=
  match fd_Kind fd with
  | Int32Kind => ValueOfInt32 <$> randInt32
  | Int64Kind => ValueOfInt64 <$> randInt64
  | Sint32Kind => ValueOfInt32 <$> randInt32
  | Sint64Kind => ValueOfInt64 <$> randInt64
  | Uint32Kind => ValueOfUint32 <$> randUint32
  | Uint64Kind => ValueOfUint64 <$> randUint64
  | Fixed32Kind => ValueOfUint32 <$> randUint32
  | Fixed64Kind => ValueOfUint64 <$> randUint64
  | Sfixed32Kind => ValueOfInt32 <$> randInt32
  | Sfixed64Kind => ValueOfInt64 <$> randInt64
  | FloatKind => ValueOfFloat32 <$> randFloat32
  | DoubleKind => ValueOfFloat64 <$> randFloat64
  | StringKind => ValueOfString <$> randString
  | BoolKind => ValueOfBool <$> randBool
  | EnumKind => ValueOfEnum <$> chooseEnumValueRandomly (fd_Enum_Values fd)
  | BytesKind => ValueOfBytes <$> randBytes
  | MessageKind =>
      if decide (allowedDepth > 0) then
        rm ← self (fd_Message fd) (allowedDepth - 1);
        mret (ValueOfMessage rm)
      else mret (ValueOfMessage (NewMessage (fd_Message fd)))
  | GroupKind => throw (UnsupportedFieldKind (fd_Kind fd))
  end.

(** The kinds with a [case] in the [switch] of [getRandValue]. *)
Definition hasDispatchEntry (k : Kind) : bool :=
  match k with GroupKind => false | _ => true end.

(** The first loop: one member chosen per oneof, recorded by the name
    of the oneof. *)
Fixpoint chooseOneOfs (oneOfs : list OneofDescriptor)
    (populatedOneOfField : gmap string Z) : M (gmap string Z) :=
  match oneOfs with
  | [] => mret populatedOneOfField
  | oneOf :: rest =>
      fd ← chooseOneOfFieldRandomly oneOf;
      chooseOneOfs rest (<[od_Name oneOf := fd_Number fd]> populatedOneOfField)
  end.

(** The test that ends in [continue]: the field is in a oneof and is
    not the member recorded for it.  A missing map entry reads as [0]. *)
Definition skipped (populatedOneOfField : gmap string Z)
    (fd : FieldDescriptor) : bool :=
  match fd_ContainingOneof fd with
  | Some oneOf =>
      bool_decide (default 0 (populatedOneOfField !! od_Name oneOf) ≠ fd_Number fd)
  | None => false
  end.

(** The body of the second loop for one field. *)
Definition populateField (getRandValue : FieldDescriptor → M Value)
    (populatedOneOfField : gmap string Z) (fd : FieldDescriptor)
    (dm : Message) : M Message :=
  if skipped populatedOneOfField fd then mret dm
  else if fd_IsList fd then
    let '(lv, dm) := Mutable dm fd in
    list ← Value_List lv;
    value ← getRandValue fd;
    mret (Set_ dm fd (ValueOfList (list ++ [value])))
  else if fd_IsMap fd then
    let '(mv, dm) := Mutable dm fd in
    mp ← Value_Map mv;
    key ← getRandValue (fd_MapKey fd);
    value ← getRandValue (fd_MapValue fd);
    k ← Value_MapKey key;
    mret (Set_ dm fd (ValueOfMap (<[k := value]> mp)))
  else
    value ← getRandValue fd;
    mret (Set_ dm fd value).

Fixpoint populateFields (getRandValue : FieldDescriptor → M Value)
    (populatedOneOfField : gmap string Z) (fds : list FieldDescriptor)
    (dm : Message) : M Message :=
  match fds with
  | [] => mret dm
  | fd :: rest =>
      dm' ← populateField getRandValue populatedOneOfField fd dm;
      populateFields getRandValue populatedOneOfField rest dm'
  end.

Definition newDynamicProtoRandBody (self : MessageDescriptor → Z → M Message)
    (mds : MessageDescriptor) (allowedDepth : Z) : M Message :=
  populatedOneOfField ← chooseOneOfs (md_Oneofs mds) ∅;
  populateFields (getRandValue self allowedDepth) populatedOneOfField
    (md_Fields mds) (NewMessage mds).

(** The recursion of [newDynamicProtoRand], unrolled [n] times over a
    stand-in [deeper] for the calls below. *)
Fixpoint unroll (deeper : MessageDescriptor → Z → M Message) (n : nat)
    : MessageDescriptor → Z → M Message :=
  match n with
  | O => deeper
  | S n' => newDynamicProtoRandBody (unroll deeper n')
  end.

(** What Go does when a recursion does not end. *)
Definition stackOverflow : MessageDescriptor → Z → M Message :=
  λ _ _, gopanic StackOverflow.

Definition newDynamicProtoRand (mds : MessageDescriptor) (allowedDepth : Z)
    : M Message :=
  unroll stackOverflow (S (Z.to_nat allowedDepth)) mds allowedDepth.

Definition NewDynamicProtoRand (mds : MessageDescriptor) : M Message :=
  newDynamicProtoRand mds MaxDepth.

Definition Gen `{!GoMessages} (inp : GoMessage) : M GoMessage :=
  let mds := gm_Descriptor inp in
  dm ← NewDynamicProtoRand mds;
  let out := gm_New inp in
  mret (gm_Merge out dm).

End Generator.

(** ** Notions used by the statements *)

Section Notions.
Context `{RandSource} `{ProtoReflect}.

(** What a valid descriptor guarantees about numbers and oneofs: the
    field numbers of a message are distinct, so are the names of its
    oneofs, and every member of a oneof is a field of the message that
    names this oneof as its containing one. *)
Definition wellFormed (mds : MessageDescriptor) : Prop :=
  NoDup (fd_Number <$> md_Fields mds)
  ∧ NoDup (od_Name <$> md_Oneofs mds)
  ∧ ∀ oneOf fd, oneOf ∈ md_Oneofs mds → fd ∈ od_Fields oneOf →
      fd ∈ md_Fields mds
      ∧ od_Name <$> fd_ContainingOneof fd = Some (od_Name oneOf).

(** The second loop of [newDynamicProtoRand mds d], started from [p],
    arrives at field [fd] with the oneof choices [sel], the message
    [dm] built so far and the generator in state [p2]. *)
Definition arrivesAt (mds : MessageDescriptor) (d : Z) (p : ProtoRand)
    (sel : gmap string Z) (fd : FieldDescriptor) (dm : Message)
    (p2 : ProtoRand) : Prop :=
  ∃ p1 pre post,
    chooseOneOfs (md_Oneofs mds) ∅ p = (Ok sel, p1)
    ∧ md_Fields mds = pre ++ fd :: post
    ∧ populateFields (getRandValue newDynamicProtoRand d) sel pre
        (NewMessage mds) p1 = (Ok dm, p2).

(** Processing field [fd] from there hands the descriptor [vfd] to
    [getRandValue] with the generator in state [p3]: [fd] itself for a
    list or a plain field, the key descriptor of a map field and, once
    the key is drawn, its value descriptor. *)
Definition handsOver (gv : FieldDescriptor → M Value) (sel : gmap string Z)
    (fd : FieldDescriptor) (dm : Message) (p2 : ProtoRand)
    (vfd : FieldDescriptor) (p3 : ProtoRand) : Prop :=
  skipped sel fd = false
  ∧ if fd_IsList fd then
      (∃ l, Value_List (Mutable dm fd).1 p2 = (Ok l, p2)) ∧ vfd = fd ∧ p3 = p2
    else if fd_IsMap fd then
      (∃ mp, Value_Map (Mutable dm fd).1 p2 = (Ok mp, p2))
      ∧ ((vfd = fd_MapKey fd ∧ p3 = p2)
         ∨ (vfd = fd_MapValue fd ∧ ∃ key, gv (fd_MapKey fd) p2 = (Ok key, p3)))
    else vfd = fd ∧ p3 = p2.

(** [Dispatches mds d p vfd p3]: the traversal started by
    [newDynamicProtoRand mds d] in state [p] reaches the [switch] of
    [getRandValue] on the value kind of [vfd] with the generator in
    state [p3], in the message itself or in a nested message it
    recurses into. *)
Inductive Dispatches : MessageDescriptor → Z → ProtoRand →
    FieldDescriptor → ProtoRand → Prop :=
  | Dispatches_here mds d p sel fd dm p2 vfd p3 :
      arrivesAt mds d p sel fd dm p2 →
      handsOver (getRandValue newDynamicProtoRand d) sel fd dm p2 vfd p3 →
      Dispatches mds d p vfd p3
  | Dispatches_nested mds d p sel fd dm p2 vfd p3 vfd' p4 :
      arrivesAt mds d p sel fd dm p2 →
      handsOver (getRandValue newDynamicProtoRand d) sel fd dm p2 vfd p3 →
      fd_Kind vfd = MessageKind →
      d > 0 →
      Dispatches (fd_Message vfd) (d - 1) p3 vfd' p4 →
      Dispatches mds d p vfd' p4.

(** The value stored for a collection field holds one element: a list
    of one value, a map of one entry. *)
Definition holdsOne (fd : FieldDescriptor) (v : Value) : Prop :=
  if fd_IsList fd then ∃ x, v = ValueOfList [x]
  else if fd_IsMap fd then ∃ k x, v = ValueOfMap {[k := x]}
  else True.

(** The message found by following the message-valued field [num]
    [n] times. *)
Fixpoint descend (num : Z) (n : nat) (m : Message) : option Message :=
  match n with
  | O => Some m
  | S n' =>
      match known m !! num with
      | Some (ValueOfMessage m') => descend num n' m'
      | _ => None
      end
  end.

(** The way a result fails, if it does, and the computations that end
    in none of the failures [F]. *)
Definition failure : Type := error + panic.

Definition failureOf {A} (o : outcome A) : option failure :=
  match o with
  | Ok _ => None
  | Err e => Some (inl e)
  | Panicked w => Some (inr w)
  end.

Definition avoids {A} (F : failure → Prop) (m : M A) : Prop :=
  ∀ p f, failureOf (m p).1 = Some f → ¬ F f.

Definition isError (f : failure) : Prop := ∃ e, f = inl e.

(** The message found by following the message-valued fields numbered
    along [path]. *)
Fixpoint descendPath (path : list Z) (m : Message) : option Message :=
  match path with
  | [] => Some m
  | num :: rest =>
      match known m !! num with
      | Some (ValueOfMessage m') => descendPath rest m'
      | _ => None
      end
  end.

(** The descriptors that the second loop hands to [getRandValue] for a
    field that it does not skip. *)
Definition valueDescriptors (fd : FieldDescriptor) : list FieldDescriptor :=
  if fd_IsList fd then [fd]
  else if fd_IsMap fd then [fd_MapKey fd; fd_MapValue fd]
  else [fd].

(** The kinds whose values [Value_MapKey] accepts as a map key. *)
Definition hashableKind (k : Kind) : bool :=
  match k with
  | BytesKind | MessageKind | GroupKind => false
  | _ => true
  end.

(** A message type from which one level of generation cannot fail: its
    field numbers are distinct, its oneofs have members, no field is a
    list and a map at once, map keys are of a kind that can be a key,
    and every kind handed to [getRandValue] has a dispatch entry. *)
Definition healthy (mds : MessageDescriptor) : Prop :=
  NoDup (fd_Number <$> md_Fields mds)
  ∧ Forall (λ oneOf, od_Fields oneOf ≠ []) (md_Oneofs mds)
  ∧ Forall (λ fd,
      (fd_IsList fd = true → fd_IsMap fd = false)
      ∧ (fd_IsList fd = false → fd_IsMap fd = true →
         hashableKind (fd_Kind (fd_MapKey fd)) = true)
      ∧ Forall (λ vfd, hasDispatchEntry (fd_Kind vfd) = true)
          (valueDescriptors fd)) (md_Fields mds).

(** A set of message types that are healthy and that contains the type
    of every message-kind descriptor of its members. *)
Definition closedUnder (S : MessageDescriptor → Prop) : Prop :=
  ∀ m, S m →
    healthy m
    ∧ Forall (λ fd,
        Forall (λ vfd, fd_Kind vfd = MessageKind → S (fd_Message vfd))
          (valueDescriptors fd)) (md_Fields m).

(** The value has the Go type and the range of the kind of [fd], as
    [getRandValue] builds it. *)
Definition valueFits (fd : FieldDescriptor) (v : Value) : Prop :=
  match fd_Kind fd, v with
  | (Int32Kind | Sint32Kind | Sfixed32Kind), ValueOfInt32 z => 0 ≤ z < 2 ^ 31
  | (Int64Kind | Sint64Kind | Sfixed64Kind), ValueOfInt64 z => 0 ≤ z < 2 ^ 63
  | (Uint32Kind | Fixed32Kind), ValueOfUint32 z => 0 ≤ z < 2 ^ 32
  | (Uint64Kind | Fixed64Kind), ValueOfUint64 z => 0 ≤ z < 2 ^ 64
  | FloatKind, ValueOfFloat32 _ => True
  | DoubleKind, ValueOfFloat64 _ => True
  | BoolKind, ValueOfBool _ => True
  | StringKind, ValueOfString s =>
      String.length s = 10%nat ∧ ∀ c, c ∈ list_ascii_of_string s → c ∈ Chars
  | BytesKind, ValueOfBytes b =>
      length b = 10%nat ∧ ∀ x, x ∈ b → x ∈ Ascii.byte_of_ascii <$> Chars
  | EnumKind, ValueOfEnum n => n = 0 ∨ n ∈ ev_Number <$> fd_Enum_Values fd
  | MessageKind, ValueOfMessage m => typ m = fd_Message fd
  | _, _ => False
  end.

(** What is stored for a field that was populated: a value that fits,
    a list of one element that fits, or a map of one entry whose key
    and value fit the key and the value descriptor. *)
Definition storedFits (fd : FieldDescriptor) (v : Value) : Prop :=
  if fd_IsList fd then ∃ x, v = ValueOfList [x] ∧ valueFits fd x
  else if fd_IsMap fd then
    ∃ key k x q,
      v = ValueOfMap {[k := x]}
      ∧ valueFits (fd_MapKey fd) key
      ∧ Value_MapKey key q = (Ok k, q)
      ∧ valueFits (fd_MapValue fd) x
  else valueFits fd v.

(** The panic of [Intn] on a bound that is not positive. *)
Definition intnPanic (f : failure) : Prop := f = inr IntnNonPositive.

(** The ASCII digits and letters. *)
Definition alphanumeric (b : Byte.byte) : Prop :=
  (48 ≤ Byte.to_N b ≤ 57 ∨ 65 ≤ Byte.to_N b ≤ 90 ∨ 97 ≤ Byte.to_N b ≤ 122)%N.

End Notions.

(** ** A concrete random source and a concrete schema registry

    Instances of the two interfaces, on which the statements below are
    evaluated.  [lcgRand] is a 64-bit linear congruential generator; it
    is not the generator of [math/rand], only one that meets the
    documented ranges. *)

Definition lcgNext (s : Z) : Z :=
  (s * 6364136223846793005 + 1442695040888963407) mod 2 ^ 64.

(** The draws are the leading bits of the next state. *)
Definition lcgRand : RandSource := {|
  Rand := Z;
  NewSource seed := seed mod 2 ^ 64;
  Int31 s := ((lcgNext s / 2 ^ 33) mod 2 ^ 31, lcgNext s);
  Int63 s := ((lcgNext s / 2 ^ 1) mod 2 ^ 63, lcgNext s);
  Uint32 s := ((lcgNext s / 2 ^ 32) mod 2 ^ 32, lcgNext s);
  Uint64 s := (lcgNext s mod 2 ^ 64, lcgNext s);
  Float32 s := (lcgNext s / 2 ^ 40, lcgNext s);
  Float64 s := (lcgNext s / 2 ^ 11, lcgNext s);
  Intn n s := ((lcgNext s / 2 ^ 33) mod n, lcgNext s);
  Int31_range r := Z.mod_pos_bound (lcgNext r / 2 ^ 33) (2 ^ 31) eq_refl;
  Int63_range r := Z.mod_pos_bound (lcgNext r / 2 ^ 1) (2 ^ 63) eq_refl;
  Uint32_range r := Z.mod_pos_bound (lcgNext r / 2 ^ 32) (2 ^ 32) eq_refl;
  Uint64_range r := Z.mod_pos_bound (lcgNext r) (2 ^ 64) eq_refl;
  Intn_range n r := Z.mod_pos_bound (lcgNext r / 2 ^ 33) n;
|}.

(** A schema as a table: a message is a name, a field is a row that
    names its parent, a oneof is a pair of the message and its name. *)

Record FieldRow : Type := mkFieldRow {
  row_parent : string;
  row_number : Z;
  row_kind : Kind;
  row_list : bool;
  row_map : option (Kind * Kind);
  row_oneof : option string;
  row_enum : list Z;
  row_msg : string;
}.

Record MessageRow : Type := mkMessageRow {
  msg_name : string;
  msg_oneofs : list string;
  msg_fields : list FieldRow;
}.

Definition rowsOf (reg : list MessageRow) (name : string) : list FieldRow :=
  match List.find (λ m, bool_decide (msg_name m = name)) reg with
  | Some m => msg_fields m
  | None => []
  end.

Definition oneofsOf (reg : list MessageRow) (name : string) : list (string * string) :=
  match List.find (λ m, bool_decide (msg_name m = name)) reg with
  | Some m => (λ o, (name, o)) <$> msg_oneofs m
  | None => []
  end.

Definition mapEntryField (fd : FieldRow) (number : Z) (pick : Kind * Kind → Kind)
    : FieldRow :=
  mkFieldRow (row_parent fd) number
    (match row_map fd with Some kv => pick kv | None => GroupKind end)
    false None None (row_enum fd) (row_msg fd).

Definition tableReflect (reg : list MessageRow) : ProtoReflect := {|
  MessageDescriptor := string;
  FieldDescriptor := FieldRow;
  OneofDescriptor := string * string;
  EnumValueDescriptor := Z;
  md_Fields := rowsOf reg;
  md_Oneofs := oneofsOf reg;
  fd_Number := row_number;
  fd_Kind := row_kind;
  fd_IsList := row_list;
  fd_IsMap fd := bool_decide (is_Some (row_map fd));
  fd_MapKey fd := mapEntryField fd 1 fst;
  fd_MapValue fd := mapEntryField fd 2 snd;
  fd_ContainingOneof fd := (λ o, (row_parent fd, o)) <$> row_oneof fd;
  fd_Enum_Values := row_enum;
  fd_Message := row_msg;
  od_Name := snd;
  od_Fields o :=
    filter (λ fd, row_oneof fd = Some o.2) (rowsOf reg o.1);
  ev_Number n := n;
|}.

Definition scalarRow (parent : string) (number : Z) (kind : Kind) : FieldRow :=
  mkFieldRow parent number kind false None None [] "".

(** [message Node { int32 id = 1; Node next = 2; repeated string tags = 3;
      map<string, int64> attrs = 4;
      oneof choice { bool a = 5; uint32 b = 6; Color c = 7; } }]
    with [enum Color { RED = 0; GREEN = 1; BLUE = 2; }];
    [message Legacy { int32 id = 1; group G = 2; }];
    [message Hollow { oneof nothing {} }], which no compiler accepts;
    [message Flagged { Only o = 1; }] with [enum Only { ONLY = 5; }]. *)
Definition sampleRegistry : list MessageRow := [
  mkMessageRow "Node" ["choice"] [
    scalarRow "Node" 1 Int32Kind;
    mkFieldRow "Node" 2 MessageKind false None None [] "Node";
    mkFieldRow "Node" 3 StringKind true None None [] "";
    mkFieldRow "Node" 4 MessageKind false (Some (StringKind, Int64Kind)) None [] "";
    mkFieldRow "Node" 5 BoolKind false None (Some "choice") [] "";
    mkFieldRow "Node" 6 Uint32Kind false None (Some "choice") [] "";
    mkFieldRow "Node" 7 EnumKind false None (Some "choice") [0; 1; 2] ""
  ];
  mkMessageRow "Legacy" [] [
    scalarRow "Legacy" 1 Int32Kind;
    mkFieldRow "Legacy" 2 GroupKind false None None [] "Legacy"
  ];
  mkMessageRow "Hollow" ["nothing"] [];
  mkMessageRow "Flagged" [] [
    mkFieldRow "Flagged" 1 EnumKind false None None [5] ""
  ]
].

Definition sampleReflect : ProtoReflect := tableReflect sampleRegistry.

(** The concrete Go type of a sample message is the generic message. *)
Definition sampleGoMessages : @GoMessages sampleReflect := {|
  GoMessage := @Message sampleReflect;
  gm_Descriptor := @typ sampleReflect;
  gm_New m := @NewMessage sampleReflect (@typ sampleReflect m);
  gm_Merge out dm :=
    mkMessage (@typ sampleReflect out)
      (@known sampleReflect dm ∪ @known sampleReflect out);
|}.

#[global] Instance sample_field_eq_dec : EqDecision (@FieldDescriptor sampleReflect).
Proof. unfold FieldDescriptor; cbn. solve_decision. Defined.

Definition Node : @MessageDescriptor sampleReflect := "Node".

Definition Legacy : @MessageDescriptor sampleReflect := "Legacy".

Definition Hollow : @MessageDescriptor sampleReflect := "Hollow".

Definition Flagged : @MessageDescriptor sampleReflect := "Flagged".

Definition idField : @FieldDescriptor sampleReflect :=
  scalarRow "Node" 1 Int32Kind.

Definition nextField : @FieldDescriptor sampleReflect :=
  mkFieldRow "Node" 2 MessageKind false None None [] "Node".

Definition tagsField : @FieldDescriptor sampleReflect :=
  mkFieldRow "Node" 3 StringKind true None None [] "".

Definition attrsField : @FieldDescriptor sampleReflect :=
  mkFieldRow "Node" 4 MessageKind false (Some (StringKind, Int64Kind)) None [] "".

Definition choice : @OneofDescriptor sampleReflect := ("Node", "choice").

(** The declared values of [Color] and of [Only]. *)
Definition colorValues : list (@EnumValueDescriptor sampleReflect) := [0; 1; 2].

Definition onlyValues : list (@EnumValueDescriptor sampleReflect) := [5].

Definition nothing : @OneofDescriptor sampleReflect := ("Hollow", "nothing").

Definition seeded : @ProtoRand lcgRand := @Seed lcgRand 42 (@New lcgRand 0).

Definition nodeInput : @GoMessage sampleReflect sampleGoMessages :=
  @NewMessage sampleReflect Node.

(** The message generated from the sample schema, the empty one if none
    is returned. *)
Definition generated (mds : @MessageDescriptor sampleReflect) (d : Z)
    : @Message sampleReflect :=
  match (@newDynamicProtoRand lcgRand sampleReflect mds d seeded).1 with
  | Ok dm => dm
  | _ => @NewMessage sampleReflect mds
  end.

#[global] Instance sample_message_eq_dec :
  EqDecision (@MessageDescriptor sampleReflect).
Proof. unfold MessageDescriptor; cbn. solve_decision. Defined.

(** The value that [getRandValue] returns for a descriptor of the
    sample schema, and the value stored under a number of a generated
    message; [false] where there is none. *)
Definition drawnValue (fd : @FieldDescriptor sampleReflect)
    : @Value sampleReflect :=
  match (@getRandValue lcgRand sampleReflect
           (@newDynamicProtoRand lcgRand sampleReflect) 16 fd seeded).1 with
  | Ok v => v
  | _ => ValueOfBool false
  end.

Definition storedValue (mds : @MessageDescriptor sampleReflect) (d n : Z)
    : @Value sampleReflect :=
  default (ValueOfBool false) (@known sampleReflect (generated mds d) !! n).

Definition legacyInput : @GoMessage sampleReflect sampleGoMessages :=
  @NewMessage sampleReflect Legacy.

(** The set that holds [Node] alone. *)
Definition onlyNode (m : @MessageDescriptor sampleReflect) : Prop := m = Node.

(** * Properties *)

(** ** The monad *)

Section MonadFacts.
Context `{RandSource}.

Lemma bind_run {A B} (m : M A) (f : A → M B) p :
  (m ≫= f) p =
    match m p with
    | (Ok a, p') => f a p'
    | (Err e, p') => (Err e, p')
    | (Panicked w, p') => (Panicked w, p')
    end.
Proof. reflexivity. Qed.

Lemma fmap_run {A B} (f : A → B) (m : M A) p :
  (f <$> m) p =
    match m p with
    | (Ok a, p') => (Ok (f a), p')
    | (Err e, p') => (Err e, p')
    | (Panicked w, p') => (Panicked w, p')
    end.
Proof. reflexivity. Qed.

Lemma ret_run {A} (a : A) p : (mret a : M A) p = (Ok a, p).
Proof. reflexivity. Qed.

Lemma bind_ext {A B} (m1 m2 : M A) (f1 f2 : A → M B) p :
  m1 p = m2 p → (∀ a p', f1 a p' = f2 a p') → (m1 ≫= f1) p = (m2 ≫= f2) p.
Proof.
  intros Hm Hf. rewrite !bind_run, Hm.
  destruct (m2 p) as [[a|e|w] p']; auto.
Qed.

Lemma bind_Ok_inv {A B} (m : M A) (f : A → M B) p b p' :
  (m ≫= f) p = (Ok b, p') →
  ∃ a p1, m p = (Ok a, p1) ∧ f a p1 = (Ok b, p').
Proof.
  rewrite bind_run. destruct (m p) as [[a|e|w] p1]; [eauto|done|done].
Qed.

Lemma bind_Err_inv {A B} (m : M A) (f : A → M B) p e p' :
  (m ≫= f) p = (Err e, p') →
  m p = (Err e, p') ∨ ∃ a p1, m p = (Ok a, p1) ∧ f a p1 = (Err e, p').
Proof.
  rewrite bind_run. destruct (m p) as [[a|e1|w] p1]; [eauto| |done].
  intros [= -> ->]. by left.
Qed.

Lemma bind_Ok_run {A B} (m : M A) (f : A → M B) p a p1 :
  m p = (Ok a, p1) → (m ≫= f) p = f a p1.
Proof. intros Hm. by rewrite bind_run, Hm. Qed.

Lemma bind_Err_run {A B} (m : M A) (f : A → M B) p e p1 :
  m p = (Err e, p1) → (m ≫= f) p = (Err e, p1).
Proof. intros Hm. by rewrite bind_run, Hm. Qed.

Lemma bind_Panicked_run {A B} (m : M A) (f : A → M B) p w p1 :
  m p = (Panicked w, p1) → (m ≫= f) p = (Panicked w, p1).
Proof. intros Hm. by rewrite bind_run, Hm. Qed.

(** A draw returns normally. *)
Lemma draw_run {A} (f : Rand → A * Rand) p :
  draw f p = (Ok (f (rand p)).1, mkProtoRand (f (rand p)).2).
Proof. unfold draw. by destruct (f (rand p)). Qed.

Lemma randIntn_run n p :
  0 < n →
  randIntn n p = (Ok (Intn n (rand p)).1, mkProtoRand (Intn n (rand p)).2)
  ∧ 0 ≤ (Intn n (rand p)).1 < n.
Proof.
  intros Hn. unfold randIntn. rewrite decide_False by lia.
  split; [apply draw_run | by apply Intn_range].
Qed.

Lemma Get_run {A} (l : list A) i x p :
  0 ≤ i → l !! Z.to_nat i = Some x → Get l i p = (Ok x, p).
Proof.
  intros Hi Hx. unfold Get. rewrite decide_False by lia. by rewrite Hx.
Qed.

Lemma Get_in_range {A} (l : list A) i p :
  0 ≤ i < len l → ∃ x, l !! Z.to_nat i = Some x ∧ Get l i p = (Ok x, p).
Proof.
  intros Hi. unfold len in Hi.
  destruct (lookup_lt_is_Some_2 l (Z.to_nat i)) as [x Hx]; [lia|].
  exists x. split; [done|]. apply Get_run; [lia|done].
Qed.

Lemma Get_nil {A} i p : Get (@nil A) i p = (Panicked IndexOutOfRange, p).
Proof. unfold Get. by case_decide. Qed.

End MonadFacts.

(** ** The recursion of newDynamicProtoRand *)

Section Recursion.
Context `{RandSource} `{ProtoReflect}.

(** [getRandValue] calls [self] only one level down, and only while the
    budget is positive. *)
Lemma getRandValue_ext (f g : MessageDescriptor → Z → M Message) d fd p :
  (d > 0 → ∀ m p', f m (d - 1) p' = g m (d - 1) p') →
  getRandValue f d fd p = getRandValue g d fd p.
Proof.
  intros Hfg. unfold getRandValue.
  destruct (fd_Kind fd); try reflexivity.
  case_decide; [|reflexivity].
  apply bind_ext; auto.
Qed.

Lemma populateField_ext (gv1 gv2 : FieldDescriptor → M Value) sel fd dm p :
  (∀ fd' p', gv1 fd' p' = gv2 fd' p') →
  populateField gv1 sel fd dm p = populateField gv2 sel fd dm p.
Proof.
  intros Hgv. unfold populateField.
  destruct (skipped sel fd); [reflexivity|].
  destruct (fd_IsList fd).
  { destruct (Mutable dm fd) as [lv dm1].
    apply bind_ext; [reflexivity|]. intros l p1.
    apply bind_ext; auto. }
  destruct (fd_IsMap fd).
  { destruct (Mutable dm fd) as [mv dm1].
    apply bind_ext; [reflexivity|]. intros mp p1.
    apply bind_ext; [auto|]. intros key p2.
    apply bind_ext; auto. }
  apply bind_ext; auto.
Qed.

Lemma populateFields_ext (gv1 gv2 : FieldDescriptor → M Value) sel fds dm p :
  (∀ fd' p', gv1 fd' p' = gv2 fd' p') →
  populateFields gv1 sel fds dm p = populateFields gv2 sel fds dm p.
Proof.
  intros Hgv. revert dm p.
  induction fds as [|fd rest IH]; intros dm p; [reflexivity|].
  cbn [populateFields]. apply bind_ext; [by apply populateField_ext|].
  intros dm' p'. apply IH.
Qed.

Lemma newDynamicProtoRandBody_ext (f g : MessageDescriptor → Z → M Message)
    mds d p :
  (d > 0 → ∀ m p', f m (d - 1) p' = g m (d - 1) p') →
  newDynamicProtoRandBody f mds d p = newDynamicProtoRandBody g mds d p.
Proof.
  intros Hfg. unfold newDynamicProtoRandBody.
  apply bind_ext; [reflexivity|]. intros sel p1.
  apply populateFields_ext. intros fd' p'. by apply getRandValue_ext.
Qed.

(** Unrolled more often than the budget is deep, the recursion never
    reaches the stand-in for deeper calls. *)
Lemma unroll_enough (b1 b2 : MessageDescriptor → Z → M Message) n1 n2 mds d p :
  (Z.to_nat d < n1)%nat → (Z.to_nat d < n2)%nat →
  unroll b1 n1 mds d p = unroll b2 n2 mds d p.
Proof.
  revert n2 mds d p.
  induction n1 as [|n1 IH]; intros n2 mds d p Hn1 Hn2; [lia|].
  destruct n2 as [|n2]; [lia|]. cbn [unroll].
  apply newDynamicProtoRandBody_ext. intros Hd m p'.
  apply IH; lia.
Qed.

Lemma newDynamicProtoRand_unfold mds d p :
  newDynamicProtoRand mds d p =
    newDynamicProtoRandBody newDynamicProtoRand mds d p.
Proof.
  unfold newDynamicProtoRand at 1. cbn [unroll].
  apply newDynamicProtoRandBody_ext. intros Hd m p'.
  unfold newDynamicProtoRand. apply unroll_enough; lia.
Qed.

End Recursion.

(** ** Which failures a function of the package can end in *)

Section Avoids.
Context `{RandSource} `{ProtoReflect}.
Variable F : failure → Prop.

Lemma avoids_ret {A} (a : A) : avoids F (mret a : M A).
Proof. intros p f. rewrite ret_run. done. Qed.

Lemma avoids_bind {A B} (m : M A) (f : A → M B) :
  avoids F m → (∀ a, avoids F (f a)) → avoids F (m ≫= f).
Proof.
  intros Hm Hf p. rewrite bind_run. specialize (Hm p).
  destruct (m p) as [[a|e|w] p']; [apply Hf|exact Hm|exact Hm].
Qed.

Lemma avoids_fmap {A B} (f : A → B) (m : M A) :
  avoids F m → avoids F (f <$> m).
Proof.
  intros Hm. apply avoids_bind; [done|]. intros a. apply avoids_ret.
Qed.

Lemma avoids_draw {A} (f : Rand → A * Rand) : avoids F (draw f).
Proof. intros p g. rewrite draw_run. done. Qed.

Lemma avoids_throw {A} e : ¬ F (inl e) → avoids F (throw e : M A).
Proof. intros He p f [= <-]. exact He. Qed.

Lemma avoids_gopanic {A} w : ¬ F (inr w) → avoids F (gopanic w : M A).
Proof. intros Hw p f [= <-]. exact Hw. Qed.

(** The panics of the libraries are not among the failures avoided. *)
Hypothesis F_panic : ∀ w, w ≠ StackOverflow → ¬ F (inr w).

Lemma avoids_randIntn n : avoids F (randIntn n).
Proof.
  unfold randIntn. case_decide; [by apply avoids_gopanic, F_panic|].
  apply avoids_draw.
Qed.

Lemma avoids_Get {A} (l : list A) i : avoids F (Get l i).
Proof.
  unfold Get. case_decide; [by apply avoids_gopanic, F_panic|].
  destruct (l !! Z.to_nat i); [apply avoids_ret|].
  by apply avoids_gopanic, F_panic.
Qed.

Lemma avoids_randRunes n : avoids F (randRunes n).
Proof.
  induction n as [|n IH]; cbn [randRunes]; [apply avoids_ret|].
  apply avoids_bind; [apply avoids_randIntn|]. intros i.
  apply avoids_bind; [apply avoids_Get|]. intros c.
  apply avoids_bind; [apply IH|]. intros b. apply avoids_ret.
Qed.

Lemma avoids_randString : avoids F randString.
Proof.
  apply avoids_bind; [apply avoids_randRunes|].
  intros b. apply avoids_ret.
Qed.

Lemma avoids_randBytes : avoids F randBytes.
Proof.
  apply avoids_bind; [apply avoids_randString|].
  intros s. apply avoids_ret.
Qed.

Lemma avoids_randBool : avoids F randBool.
Proof.
  apply avoids_bind; [apply avoids_draw|].
  intros v. apply avoids_ret.
Qed.

Lemma avoids_chooseEnumValueRandomly values :
  avoids F (chooseEnumValueRandomly values).
Proof.
  unfold chooseEnumValueRandomly. cbv zeta.
  case_decide; [apply avoids_ret|].
  apply avoids_bind; [apply avoids_randIntn|]. intros i.
  apply avoids_bind; [apply avoids_Get|]. intros v.
  apply avoids_ret.
Qed.

Lemma avoids_chooseOneOfFieldRandomly oneOf :
  avoids F (chooseOneOfFieldRandomly oneOf).
Proof.
  unfold chooseOneOfFieldRandomly. cbv zeta.
  case_decide; [apply avoids_Get|].
  apply avoids_bind; [apply avoids_randIntn|]. intros i.
  apply avoids_Get.
Qed.

Lemma avoids_chooseOneOfs oneOfs sel : avoids F (chooseOneOfs oneOfs sel).
Proof.
  revert sel. induction oneOfs as [|o rest IH]; intros sel; cbn [chooseOneOfs].
  - apply avoids_ret.
  - apply avoids_bind; [apply avoids_chooseOneOfFieldRandomly|].
    intros fd. apply IH.
Qed.

Lemma avoids_Value_List v : avoids F (Value_List v).
Proof.
  destruct v; first [apply avoids_ret | by apply avoids_gopanic, F_panic].
Qed.

Lemma avoids_Value_Map v : avoids F (Value_Map v).
Proof.
  destruct v; first [apply avoids_ret | by apply avoids_gopanic, F_panic].
Qed.

Lemma avoids_Value_MapKey v : avoids F (Value_MapKey v).
Proof.
  destruct v; first [apply avoids_ret | by apply avoids_gopanic, F_panic].
Qed.

(** Every kind with a dispatch entry other than [MessageKind] is
    served by a draw that fails in no avoided way. *)
Lemma avoids_getRandValue_leaf self d fd :
  hasDispatchEntry (fd_Kind fd) = true → fd_Kind fd ≠ MessageKind →
  avoids F (getRandValue self d fd).
Proof.
  intros Hentry Hleaf. unfold getRandValue.
  destruct (fd_Kind fd); try done;
    apply avoids_fmap;
    first [apply avoids_draw
          |apply avoids_randString
          |apply avoids_randBytes
          |apply avoids_randBool
          |apply avoids_chooseEnumValueRandomly].
Qed.

Lemma avoids_getRandValue self d fd :
  (∀ e, ¬ F (inl e)) →
  (d > 0 → ∀ m, avoids F (self m (d - 1))) →
  avoids F (getRandValue self d fd).
Proof.
  intros F_error Hself.
  destruct (decide (fd_Kind fd = MessageKind)) as [Hmsg|Hleaf].
  { unfold getRandValue. rewrite Hmsg.
    case_decide; [|apply avoids_ret].
    apply avoids_bind; [by apply Hself|].
    intros rm. apply avoids_ret. }
  destruct (hasDispatchEntry (fd_Kind fd)) eqn:Hentry.
  { by apply avoids_getRandValue_leaf. }
  unfold getRandValue. destruct (fd_Kind fd); try done.
  apply avoids_throw, F_error.
Qed.

Lemma avoids_populateField gv sel fd dm :
  (∀ fd', avoids F (gv fd')) → avoids F (populateField gv sel fd dm).
Proof.
  intros Hgv. unfold populateField.
  destruct (skipped sel fd); [apply avoids_ret|].
  destruct (fd_IsList fd).
  { destruct (Mutable dm fd) as [lv dm1].
    apply avoids_bind; [apply avoids_Value_List|]. intros l.
    apply avoids_bind; [apply Hgv|]. intros v. apply avoids_ret. }
  destruct (fd_IsMap fd).
  { destruct (Mutable dm fd) as [mv dm1].
    apply avoids_bind; [apply avoids_Value_Map|]. intros mp.
    apply avoids_bind; [apply Hgv|]. intros key.
    apply avoids_bind; [apply Hgv|]. intros v.
    apply avoids_bind; [apply avoids_Value_MapKey|]. intros k.
    apply avoids_ret. }
  apply avoids_bind; [apply Hgv|]. intros v. apply avoids_ret.
Qed.

Lemma avoids_populateFields gv sel fds dm :
  (∀ fd', avoids F (gv fd')) → avoids F (populateFields gv sel fds dm).
Proof.
  intros Hgv. revert dm.
  induction fds as [|fd rest IH]; intros dm; cbn [populateFields].
  - apply avoids_ret.
  - apply avoids_bind; [by apply avoids_populateField|].
    intros dm'. apply IH.
Qed.

Lemma avoids_newDynamicProtoRandBody self mds d :
  (∀ e, ¬ F (inl e)) →
  (d > 0 → ∀ m, avoids F (self m (d - 1))) →
  avoids F (newDynamicProtoRandBody self mds d).
Proof.
  intros F_error Hself. unfold newDynamicProtoRandBody.
  apply avoids_bind; [apply avoids_chooseOneOfs|]. intros sel.
  apply avoids_populateFields. intros fd'.
  by apply avoids_getRandValue.
Qed.

Lemma avoids_unroll deeper n mds d :
  (∀ e, ¬ F (inl e)) →
  (Z.to_nat d < n)%nat → avoids F (unroll deeper n mds d).
Proof.
  intros F_error. revert mds d.
  induction n as [|n IH]; intros mds d Hn; [lia|].
  cbn [unroll]. apply avoids_newDynamicProtoRandBody; [done|].
  intros Hd m. apply IH. lia.
Qed.

End Avoids.

Section NoOverflow.
Context `{RandSource} `{ProtoReflect}.

Lemma noOverflow_newDynamicProtoRand mds d p :
  (newDynamicProtoRand mds d p).1 ≠ Panicked StackOverflow.
Proof.
  intros Hrun.
  eapply (avoids_unroll (λ f, f = inr StackOverflow)
            ltac:(by intros w Hw [= ->]) stackOverflow
            (S (Z.to_nat d)) mds d ltac:(done) ltac:(lia) p).
  - fold (newDynamicProtoRand mds d). rewrite Hrun. reflexivity.
  - reflexivity.
Qed.

End NoOverflow.

(** ** Termination *)

(** C7. Every generation call ends, whatever the schema: the body of
    [newDynamicProtoRand] at budget [allowedDepth] consults its
    recursive calls only at budget [allowedDepth - 1] and only while
    [allowedDepth > 0], so unrolling the recursion more than
    [allowedDepth] times never reaches a further call (the result does
    not depend on what stands for it), the function solves its own
    recursion equation, and it yields a result that is not an exhausted
    stack. *)
Theorem generation_terminates `{RandSource} `{ProtoReflect}
    (mds : MessageDescriptor) (allowedDepth : Z) (p : ProtoRand)
    (deeper : MessageDescriptor → Z → M Message) (n : nat) :
  (Z.to_nat allowedDepth < n)%nat →
  unroll deeper n mds allowedDepth p = newDynamicProtoRand mds allowedDepth p
  ∧ newDynamicProtoRand mds allowedDepth p
      = newDynamicProtoRandBody newDynamicProtoRand mds allowedDepth p
  ∧ (∀ f g : MessageDescriptor → Z → M Message,
       (allowedDepth > 0 →
          ∀ m p', f m (allowedDepth - 1) p' = g m (allowedDepth - 1) p') →
       newDynamicProtoRandBody f mds allowedDepth p
         = newDynamicProtoRandBody g mds allowedDepth p)
  ∧ ∃ o p', newDynamicProtoRand mds allowedDepth p = (o, p')
            ∧ o ≠ Panicked StackOverflow.
Proof.
  intros Hn. split.
  { unfold newDynamicProtoRand. apply unroll_enough; lia. }
  split; [apply newDynamicProtoRand_unfold|].
  split; [intros f g; apply newDynamicProtoRandBody_ext|].
  pose proof (noOverflow_newDynamicProtoRand mds allowedDepth p) as Hno.
  destruct (newDynamicProtoRand mds allowedDepth p) as [o p'] eqn:Hrun.
  exists o, p'. done.
Qed.

(** ** Determinism *)

(** C4. Two runs that reseed with the same seed and generate from the
    same schema return the same result, whatever the two generators
    were before [Seed]: the same message or the same failure, the same
    converted message from [Gen], and the same bytes under any
    serialisation.  (The code reads the clock only in [New] and reads
    its Go map only by key.) *)
Theorem same_seed_same_output `{RandSource} `{ProtoReflect} `{!GoMessages}
    (mds : MessageDescriptor) (inp : GoMessage) (seed : Z)
    (p1 p2 : ProtoRand) :
  NewDynamicProtoRand mds (Seed seed p1) = NewDynamicProtoRand mds (Seed seed p2)
  ∧ Gen inp (Seed seed p1) = Gen inp (Seed seed p2)
  ∧ ∀ (Bytes : Type) (marshal : Message → Bytes),
      (marshal <$> NewDynamicProtoRand mds) (Seed seed p1)
        = (marshal <$> NewDynamicProtoRand mds) (Seed seed p2).
Proof. unfold Seed. repeat split. Qed.

(** ** Enum selection *)

Section EnumFacts.
Context `{RandSource} `{ProtoReflect}.

Lemma NoDup_fmap_lookup_inj {A B} (f : A → B) (l : list A) i j x y :
  NoDup (f <$> l) → l !! i = Some x → l !! j = Some y → f x = f y → i = j.
Proof.
  intros Hnd Hi Hj Hxy.
  eapply NoDup_lookup; [exact Hnd| |].
  - rewrite list_lookup_fmap, Hi. reflexivity.
  - rewrite list_lookup_fmap, Hj. cbn. by rewrite Hxy.
Qed.

End EnumFacts.

(** C3. For an enum of [N ≥ 2] declared values the index is drawn by
    [Intn (N - 1)]: the result is the number of the value at an index
    [i] with [0 ≤ i ≤ N - 2], so the value at index [N - 1], the last
    one declared, is never the one selected; where the declared numbers
    are distinct the result differs from the number of the last value. *)
Theorem enum_selection_excludes_last `{RandSource} `{ProtoReflect}
    (values : list EnumValueDescriptor) (p : ProtoRand) :
  2 ≤ len values →
  ∃ i v,
    chooseEnumValueRandomly values p
      = (Ok (ev_Number v), mkProtoRand (Intn (len values - 1) (rand p)).2)
    ∧ i = (Intn (len values - 1) (rand p)).1
    ∧ 0 ≤ i ≤ len values - 2
    ∧ values !! Z.to_nat i = Some v
    ∧ Z.to_nat i ≠ (length values - 1)%nat
    ∧ (NoDup (ev_Number <$> values) →
       ∀ vlast, values !! (length values - 1)%nat = Some vlast →
         ev_Number v ≠ ev_Number vlast).
Proof.
  intros HN. unfold chooseEnumValueRandomly. cbv zeta.
  rewrite decide_False by lia.
  destruct (randIntn_run (len values - 1) p) as [Hrun Hrange]; [lia|].
  set (i := (Intn (len values - 1) (rand p)).1) in *.
  destruct (Get_in_range values i (mkProtoRand (Intn (len values - 1) (rand p)).2))
    as (v & Hv & Hget); [lia|].
  exists i, v. split.
  { erewrite bind_Ok_run by exact Hrun.
    erewrite bind_Ok_run by exact Hget. reflexivity. }
  unfold len in *.
  repeat split; try lia; try done.
  intros Hnd vlast Hlast Heq.
  assert (Z.to_nat i = (length values - 1)%nat) as Hidx.
  { eapply NoDup_fmap_lookup_inj; eauto. }
  lia.
Qed.

(** C9, as the code has it.  For an enum of at most one declared value
    the selection returns the enum number [0] without looking at the
    declared list and without a draw: the generator is left as it was. *)
Theorem enum_selection_small `{RandSource} `{ProtoReflect}
    (values : list EnumValueDescriptor) (p : ProtoRand) :
  len values ≤ 1 →
  chooseEnumValueRandomly values p = (Ok 0, p).
Proof.
  intros Hln. unfold chooseEnumValueRandomly. cbv zeta.
  by rewrite decide_True by done.
Qed.

(** ** The signed draws *)

(** C8, as the code has it.  [randInt32] is [Int31] and [randInt64] is
    [Int63]: each returns normally a non-negative value, below [2^31]
    and [2^63]; the three signed 32-bit kinds all take their value from
    [randInt32] and the three signed 64-bit kinds from [randInt64]. *)
Theorem signed_draws_are_non_negative `{RandSource} `{ProtoReflect}
    (self : MessageDescriptor → Z → M Message) (allowedDepth : Z)
    (fd : FieldDescriptor) (p : ProtoRand) :
  (∃ v p', randInt32 p = (Ok v, p') ∧ 0 ≤ v < 2 ^ 31)
  ∧ (∃ v p', randInt64 p = (Ok v, p') ∧ 0 ≤ v < 2 ^ 63)
  ∧ (fd_Kind fd ∈ [Int32Kind; Sint32Kind; Sfixed32Kind] →
     getRandValue self allowedDepth fd p = (ValueOfInt32 <$> randInt32) p)
  ∧ (fd_Kind fd ∈ [Int64Kind; Sint64Kind; Sfixed64Kind] →
     getRandValue self allowedDepth fd p = (ValueOfInt64 <$> randInt64) p).
Proof.
  split.
  { eexists _, _. split; [apply draw_run|apply Int31_range]. }
  split.
  { eexists _, _. split; [apply draw_run|apply Int63_range]. }
  split; intros Hk; unfold getRandValue;
    repeat (apply elem_of_cons in Hk as [->|Hk]; [reflexivity|]);
    by apply elem_of_nil in Hk.
Qed.

(** ** An empty oneof *)

Section OneofFacts.
Context `{RandSource} `{ProtoReflect}.

Lemma Get_Ok_elem_of {A} (l : list A) i x p p' :
  Get l i p = (Ok x, p') → x ∈ l ∧ p' = p.
Proof.
  unfold Get. case_decide; [done|].
  destruct (l !! Z.to_nat i) as [y|] eqn:Hy; [|done].
  intros [= <- <-]. split; [|done]. by eapply list_elem_of_lookup_2.
Qed.

(** On a group that has members the selection returns one of them. *)
Lemma chooseOneOfFieldRandomly_nonempty oneOf p :
  od_Fields oneOf ≠ [] →
  ∃ fd p', chooseOneOfFieldRandomly oneOf p = (Ok fd, p') ∧ fd ∈ od_Fields oneOf.
Proof.
  intros Hne. unfold chooseOneOfFieldRandomly. cbv zeta.
  assert (0 < len (od_Fields oneOf)) as Hlen.
  { unfold len. destruct (od_Fields oneOf); [done|cbn; lia]. }
  case_decide.
  - destruct (Get_in_range (od_Fields oneOf) 0 p) as (fd & Hfd & Hget); [lia|].
    exists fd, p. split; [done|]. by eapply list_elem_of_lookup_2.
  - destruct (randIntn_run (len (od_Fields oneOf)) p) as [Hrun Hrange]; [lia|].
    destruct (Get_in_range (od_Fields oneOf) _
                (mkProtoRand (Intn (len (od_Fields oneOf)) (rand p)).2) Hrange)
      as (fd & Hfd & Hget).
    exists fd, (mkProtoRand (Intn (len (od_Fields oneOf)) (rand p)).2).
    split; [|by eapply list_elem_of_lookup_2].
    erewrite bind_Ok_run by exact Hrun. exact Hget.
Qed.

Lemma chooseOneOfFieldRandomly_empty oneOf p :
  od_Fields oneOf = [] →
  chooseOneOfFieldRandomly oneOf p = (Panicked IndexOutOfRange, p).
Proof.
  intros Hnil. unfold chooseOneOfFieldRandomly. cbv zeta. rewrite Hnil.
  rewrite decide_True by (unfold len; cbn; lia). apply Get_nil.
Qed.

Lemma chooseOneOfFieldRandomly_Ok oneOf p fd p' :
  chooseOneOfFieldRandomly oneOf p = (Ok fd, p') → fd ∈ od_Fields oneOf.
Proof.
  unfold chooseOneOfFieldRandomly. cbv zeta. case_decide.
  - intros Hget. by apply Get_Ok_elem_of in Hget as [? _].
  - intros (i & p1 & _ & Hget)%bind_Ok_inv.
    by apply Get_Ok_elem_of in Hget as [? _].
Qed.

Lemma chooseOneOfs_empty_member oneOfs sel oneOf p :
  oneOf ∈ oneOfs → od_Fields oneOf = [] →
  ∃ p', chooseOneOfs oneOfs sel p = (Panicked IndexOutOfRange, p').
Proof.
  intros Hin Hnil. revert sel p.
  induction oneOfs as [|o rest IH]; intros sel p; [by inversion Hin|].
  cbn [chooseOneOfs].
  destruct (decide (od_Fields o = [])) as [Ho|Ho].
  - exists p. erewrite bind_Panicked_run; [done|].
    by apply chooseOneOfFieldRandomly_empty.
  - destruct (chooseOneOfFieldRandomly_nonempty o p Ho) as (fd & p1 & Hrun & _).
    erewrite bind_Ok_run by exact Hrun.
    apply IH. apply elem_of_cons in Hin as [->|Hin]; [done|exact Hin].
Qed.

End OneofFacts.

(** C10. On a oneof group without members the selection reads index
    [0] of an empty list, which is out of range, and panics; generation
    from a descriptor that declares such a group ends in that panic at
    every budget and from every generator state, so it returns neither
    a message nor an error. *)
Theorem empty_oneof_panics `{RandSource} `{ProtoReflect}
    (mds : MessageDescriptor) (allowedDepth : Z) (p : ProtoRand)
    (oneOf : OneofDescriptor) :
  oneOf ∈ md_Oneofs mds →
  od_Fields oneOf = [] →
  chooseOneOfFieldRandomly oneOf p
    = (Get (od_Fields oneOf) 0 p)
  ∧ Get (od_Fields oneOf) 0 p = (Panicked IndexOutOfRange, p)
  ∧ ∃ p', newDynamicProtoRand mds allowedDepth p = (Panicked IndexOutOfRange, p').
Proof.
  intros Hin Hnil. split.
  { unfold chooseOneOfFieldRandomly. cbv zeta. rewrite Hnil.
    by rewrite decide_True by (unfold len; cbn; lia). }
  split; [rewrite Hnil; apply Get_nil|].
  rewrite newDynamicProtoRand_unfold. unfold newDynamicProtoRandBody.
  destruct (chooseOneOfs_empty_member (md_Oneofs mds) ∅ oneOf p Hin Hnil)
    as [p' Hrun].
  exists p'. by erewrite bind_Panicked_run.
Qed.

(** ** The two loops *)

Section LoopFacts.
Context `{RandSource} `{ProtoReflect}.

Lemma NoDup_fmap_elem_inj {A B} (f : A → B) (l : list A) x y :
  NoDup (f <$> l) → x ∈ l → y ∈ l → f x = f y → x = y.
Proof.
  intros Hnd [i Hi]%list_elem_of_lookup [j Hj]%list_elem_of_lookup Hxy.
  assert (i = j) as -> by (eapply NoDup_fmap_lookup_inj; eauto).
  congruence.
Qed.

Lemma chooseOneOfs_frame oneOfs sel0 p sel p' name :
  chooseOneOfs oneOfs sel0 p = (Ok sel, p') →
  name ∉ od_Name <$> oneOfs →
  sel !! name = sel0 !! name.
Proof.
  revert sel0 p. induction oneOfs as [|o rest IH]; intros sel0 p; cbn [chooseOneOfs].
  - by intros [= <- <-].
  - intros (fd & p1 & _ & Hrest)%bind_Ok_inv Hname.
    rewrite fmap_cons, not_elem_of_cons in Hname. destruct Hname as [Hne Hname].
    rewrite (IH _ _ Hrest Hname). by rewrite lookup_insert_ne.
Qed.

(** After the first loop the map holds, for every oneof of the message,
    the number of one of its members. *)
Lemma chooseOneOfs_records oneOfs sel0 p sel p' oneOf :
  NoDup (od_Name <$> oneOfs) →
  chooseOneOfs oneOfs sel0 p = (Ok sel, p') →
  oneOf ∈ oneOfs →
  ∃ fd, fd ∈ od_Fields oneOf ∧ sel !! od_Name oneOf = Some (fd_Number fd).
Proof.
  revert sel0 p. induction oneOfs as [|o rest IH]; intros sel0 p Hnd;
    cbn [chooseOneOfs]; [by intros _ Hin; inversion Hin|].
  rewrite fmap_cons in Hnd. apply list.NoDup_cons in Hnd as [Hfresh Hnd].
  intros (fd & p1 & Hfd & Hrest)%bind_Ok_inv Hin.
  apply elem_of_cons in Hin as [->|Hin]; [|by eapply IH].
  exists fd. split; [by eapply chooseOneOfFieldRandomly_Ok|].
  rewrite (chooseOneOfs_frame _ _ _ _ _ _ Hrest Hfresh).
  by rewrite lookup_insert_eq.
Qed.

Lemma avoids_isError_run {A} (m : M A) p e p' :
  avoids isError m → m p ≠ (Err e, p').
Proof.
  intros Hm Hrun. apply (Hm p (inl e)); [by rewrite Hrun|by exists e].
Qed.

Lemma isError_panic w : w ≠ StackOverflow → ¬ isError (inr w).
Proof. by intros _ [e ?]. Qed.

Lemma chooseOneOfs_not_Err oneOfs sel0 p e p' :
  chooseOneOfs oneOfs sel0 p ≠ (Err e, p').
Proof. apply avoids_isError_run, avoids_chooseOneOfs, isError_panic. Qed.

Lemma known_Set_Mutable dm fd v dm1 w :
  Mutable dm fd = (v, dm1) →
  typ (Set_ dm1 fd w) = typ dm
  ∧ known (Set_ dm1 fd w) = <[fd_Number fd := w]> (known dm)
  ∧ (known dm !! fd_Number fd = None → v = NewField fd).
Proof.
  unfold Mutable. destruct (known dm !! fd_Number fd) as [v0|] eqn:Hv.
  - intros [= <- <-]. by destruct dm.
  - intros [= <- <-]. destruct dm as [t k]. cbn.
    by rewrite insert_insert_eq.
Qed.

(** One turn of the second loop either skips the field or stores one
    value under its number; for a field that was unset, a list field
    then holds one element and a map field one entry. *)
Lemma populateField_Ok gv sel fd dm p dm1 p1 :
  populateField gv sel fd dm p = (Ok dm1, p1) →
  typ dm1 = typ dm
  ∧ ((skipped sel fd = true ∧ dm1 = dm)
     ∨ (skipped sel fd = false
        ∧ ∃ v, known dm1 = <[fd_Number fd := v]> (known dm)
               ∧ (known dm !! fd_Number fd = None → holdsOne fd v))).
Proof.
  unfold populateField, holdsOne.
  destruct (skipped sel fd); [intros [= <- <-]; auto|].
  destruct (fd_IsList fd) eqn:HisList.
  { destruct (Mutable dm fd) as [lv dm'] eqn:Hmut.
    intros (l & p2 & Hl & (x & p3 & Hx & [= <- <-])%bind_Ok_inv)%bind_Ok_inv.
    destruct (known_Set_Mutable _ _ _ _ (ValueOfList (l ++ [x])) Hmut)
      as (Htyp & Hknown & Hfresh).
    split; [done|]. right. split; [done|]. eexists. split; [done|].
    intros Hnone. specialize (Hfresh Hnone). subst lv.
    unfold NewField in Hl. rewrite HisList in Hl.
    destruct (fd_IsMap fd); [done|].
    cbn in Hl. injection Hl as <- _. by exists x. }
  destruct (fd_IsMap fd) eqn:HisMap.
  { destruct (Mutable dm fd) as [mv dm'] eqn:Hmut.
    intros (mp & p2 & Hmp & (key & p3 & Hkey &
             (x & p4 & Hx & (k & p5 & Hk & [= <- <-])%bind_Ok_inv)
               %bind_Ok_inv)%bind_Ok_inv)%bind_Ok_inv.
    destruct (known_Set_Mutable _ _ _ _ (ValueOfMap (<[k:=x]> mp)) Hmut)
      as (Htyp & Hknown & Hfresh).
    split; [done|]. right. split; [done|]. eexists. split; [done|].
    intros Hnone. specialize (Hfresh Hnone). subst mv.
    unfold NewField in Hmp. rewrite HisMap in Hmp.
    cbn in Hmp. injection Hmp as <- _. by exists k, x. }
  intros (x & p2 & Hx & [= <- <-])%bind_Ok_inv.
  split; [by destruct dm|]. right. split; [done|]. by exists x.
Qed.

Lemma populateFields_frame gv sel fds dm p dm' p' n :
  populateFields gv sel fds dm p = (Ok dm', p') →
  n ∉ fd_Number <$> fds →
  known dm' !! n = known dm !! n.
Proof.
  revert dm p. induction fds as [|fd rest IH]; intros dm p; cbn [populateFields].
  - by intros [= <- <-].
  - intros (dm1 & p1 & Hfd & Hrest)%bind_Ok_inv Hn.
    rewrite fmap_cons, not_elem_of_cons in Hn. destruct Hn as [Hne Hn].
    rewrite (IH _ _ Hrest Hn).
    apply populateField_Ok in Hfd as [_ [[_ ->]|[_ (v & -> & _)]]]; [done|].
    by rewrite lookup_insert_ne.
Qed.

Lemma populateFields_typ gv sel fds dm p dm' p' :
  populateFields gv sel fds dm p = (Ok dm', p') → typ dm' = typ dm.
Proof.
  revert dm p. induction fds as [|fd rest IH]; intros dm p; cbn [populateFields].
  - by intros [= <- <-].
  - intros (dm1 & p1 & Hfd & Hrest)%bind_Ok_inv.
    rewrite (IH _ _ Hrest). by apply populateField_Ok in Hfd as [-> _].
Qed.

(** Every number set by the second loop is the number of a field that
    the loop did not skip. *)
Lemma populateFields_origin gv sel fds dm p dm' p' n :
  populateFields gv sel fds dm p = (Ok dm', p') →
  is_Some (known dm' !! n) →
  is_Some (known dm !! n)
  ∨ ∃ fd, fd ∈ fds ∧ skipped sel fd = false ∧ fd_Number fd = n.
Proof.
  revert dm p. induction fds as [|fd rest IH]; intros dm p; cbn [populateFields].
  - intros [= <- <-]. auto.
  - intros (dm1 & p1 & Hfd & Hrest)%bind_Ok_inv Hsome.
    destruct (IH _ _ Hrest Hsome) as [Hn|(fd' & Hin & Hsk & Hnum)].
    + apply populateField_Ok in Hfd as [_ [[_ ->]|[Hsk (v & Hk & _)]]]; [auto|].
      rewrite Hk in Hn. destruct (decide (fd_Number fd = n)) as [Heq|Hne].
      * right. exists fd. split; [left|done].
      * left. by rewrite lookup_insert_ne in Hn.
    + right. exists fd'. split; [by right|done].
Qed.

(** Every field that the second loop does not skip is set, and set to
    one element if it is a list or a map. *)
Lemma populateFields_sets gv sel fds dm p dm' p' fd :
  NoDup (fd_Number <$> fds) →
  (∀ fd', fd' ∈ fds → known dm !! fd_Number fd' = None) →
  populateFields gv sel fds dm p = (Ok dm', p') →
  fd ∈ fds → skipped sel fd = false →
  ∃ v, known dm' !! fd_Number fd = Some v ∧ holdsOne fd v.
Proof.
  revert dm p. induction fds as [|fd0 rest IH]; intros dm p Hnd Hunset;
    cbn [populateFields]; [by intros _ Hin; inversion Hin|].
  rewrite fmap_cons in Hnd. apply list.NoDup_cons in Hnd as [Hfresh Hnd].
  intros (dm1 & p1 & Hfd & Hrest)%bind_Ok_inv Hin Hsk.
  pose proof Hfd as Hstep. apply populateField_Ok in Hstep as [_ Hstep].
  apply elem_of_cons in Hin as [->|Hin].
  - destruct Hstep as [[Hsk' _]|[_ (v & Hk & Hone)]]; [congruence|].
    exists v. split; [|apply Hone, Hunset; left].
    rewrite (populateFields_frame _ _ _ _ _ _ _ _ Hrest Hfresh).
    by rewrite Hk, lookup_insert_eq.
  - eapply IH; eauto.
    intros fd' Hin'.
    destruct Hstep as [[_ ->]|[_ (v & -> & _)]]; [apply Hunset; by right|].
    rewrite lookup_insert_ne; [apply Hunset; by right|].
    intros Heq. apply Hfresh. rewrite Heq. by apply list_elem_of_fmap_2.
Qed.

(** A field that is neither skipped nor a list nor a map is set to the
    value that [getRandValue] returned for it. *)
Lemma populateField_Ok_plain gv sel fd dm p dm1 p1 :
  populateField gv sel fd dm p = (Ok dm1, p1) →
  skipped sel fd = false → fd_IsList fd = false → fd_IsMap fd = false →
  ∃ v, gv fd p = (Ok v, p1) ∧ known dm1 = <[fd_Number fd := v]> (known dm).
Proof.
  unfold populateField. intros Hrun Hsk HisList HisMap.
  rewrite Hsk, HisList, HisMap in Hrun.
  apply bind_Ok_inv in Hrun as (v & p2 & Hv & [= <- <-]).
  exists v. split; [done|]. by destruct dm.
Qed.

Lemma populateFields_plain gv sel fds dm p dm' p' fd :
  NoDup (fd_Number <$> fds) →
  populateFields gv sel fds dm p = (Ok dm', p') →
  fd ∈ fds →
  skipped sel fd = false → fd_IsList fd = false → fd_IsMap fd = false →
  ∃ v p2 p3, gv fd p2 = (Ok v, p3) ∧ known dm' !! fd_Number fd = Some v.
Proof.
  revert dm p. induction fds as [|fd0 rest IH]; intros dm p Hnd;
    cbn [populateFields]; [by intros _ Hin; inversion Hin|].
  rewrite fmap_cons in Hnd. apply list.NoDup_cons in Hnd as [Hfresh Hnd].
  intros (dm1 & p1 & Hfd & Hrest)%bind_Ok_inv Hin Hsk HisList HisMap.
  apply elem_of_cons in Hin as [->|Hin]; [|by eapply IH].
  destruct (populateField_Ok_plain _ _ _ _ _ _ _ Hfd Hsk HisList HisMap)
    as (v & Hv & Hk).
  exists v, p, p1. split; [done|].
  rewrite (populateFields_frame _ _ _ _ _ _ _ _ Hrest Hfresh).
  by rewrite Hk, lookup_insert_eq.
Qed.

End LoopFacts.

(** ** Oneof groups and collections in the generated message *)

Section GeneratedFacts.
Context `{RandSource} `{ProtoReflect}.

(** The two loops behind a message that was returned. *)
Lemma newDynamicProtoRand_Ok_inv mds d p dm p' :
  newDynamicProtoRand mds d p = (Ok dm, p') →
  ∃ sel p1,
    chooseOneOfs (md_Oneofs mds) ∅ p = (Ok sel, p1)
    ∧ populateFields (getRandValue newDynamicProtoRand d) sel (md_Fields mds)
        (NewMessage mds) p1 = (Ok dm, p').
Proof.
  rewrite newDynamicProtoRand_unfold. unfold newDynamicProtoRandBody.
  intros (sel & p1 & Hsel & Hpop)%bind_Ok_inv. eauto.
Qed.

Lemma NewMessage_unset mds (fds : list FieldDescriptor) :
  ∀ fd, fd ∈ fds → known (NewMessage mds) !! fd_Number fd = None.
Proof. intros fd _. apply lookup_empty. Qed.

Lemma wellFormed_intro mds :
  NoDup (fd_Number <$> md_Fields mds) →
  NoDup (od_Name <$> md_Oneofs mds) →
  Forall (λ oneOf,
    Forall (λ fd, fd ∈ md_Fields mds
                  ∧ od_Name <$> fd_ContainingOneof fd = Some (od_Name oneOf))
      (od_Fields oneOf)) (md_Oneofs mds) →
  wellFormed mds.
Proof.
  intros Hnums Hnames Hmembers. split; [done|]. split; [done|].
  intros oneOf fd HoneOf Hfd.
  rewrite list.Forall_forall in Hmembers. specialize (Hmembers _ HoneOf).
  rewrite list.Forall_forall in Hmembers. by apply Hmembers.
Qed.

Lemma skipped_member sel fd oneOf :
  od_Name <$> fd_ContainingOneof fd = Some (od_Name oneOf) →
  skipped sel fd = bool_decide (default 0 (sel !! od_Name oneOf) ≠ fd_Number fd).
Proof.
  unfold skipped. destruct (fd_ContainingOneof fd) as [o|]; [|done].
  cbn. by intros [= ->].
Qed.

End GeneratedFacts.

(** ** The depth budget *)

(** C1. A nested-message field is handled by the depth budget: the
    generator of a message at budget [allowedDepth] runs
    [getRandValue] at that budget; on a field of kind [MessageKind] a
    positive budget recurses into the type of the field with the
    budget less one, a budget of zero yields the empty instance
    [NewMessage] of that type and draws nothing; both public entry
    points, [NewDynamicProtoRand] and [Gen], start from a budget of
    [MaxDepth = 16].  In the message returned, such a field (a plain
    one, outside a oneof, among distinct field numbers) accordingly
    holds a message generated at the budget less one, or the empty
    instance when the budget was zero. *)
Theorem nested_message_depth_rule `{RandSource} `{ProtoReflect} `{!GoMessages}
    (mds : MessageDescriptor) (allowedDepth : Z) (fd : FieldDescriptor)
    (p : ProtoRand) (inp : GoMessage) :
  fd_Kind fd = MessageKind →
  newDynamicProtoRand mds allowedDepth p
    = newDynamicProtoRandBody newDynamicProtoRand mds allowedDepth p
  ∧ (allowedDepth > 0 →
       getRandValue newDynamicProtoRand allowedDepth fd p
         = (rm ← newDynamicProtoRand (fd_Message fd) (allowedDepth - 1);
            mret (ValueOfMessage rm)) p)
  ∧ (allowedDepth = 0 →
       getRandValue newDynamicProtoRand allowedDepth fd p
         = (Ok (ValueOfMessage (NewMessage (fd_Message fd))), p))
  ∧ MaxDepth = 16
  ∧ NewDynamicProtoRand mds p = newDynamicProtoRand mds 16 p
  ∧ Gen inp p
      = (dm ← newDynamicProtoRand (gm_Descriptor inp) 16;
         mret (gm_Merge (gm_New inp) dm)) p
  ∧ ∀ dm p',
      newDynamicProtoRand mds allowedDepth p = (Ok dm, p') →
      NoDup (fd_Number <$> md_Fields mds) →
      fd ∈ md_Fields mds → fd_ContainingOneof fd = None →
      fd_IsList fd = false → fd_IsMap fd = false →
      (allowedDepth > 0 →
         ∃ rm p2 p3,
           newDynamicProtoRand (fd_Message fd) (allowedDepth - 1) p2 = (Ok rm, p3)
           ∧ known dm !! fd_Number fd = Some (ValueOfMessage rm))
      ∧ (allowedDepth = 0 →
           known dm !! fd_Number fd
             = Some (ValueOfMessage (NewMessage (fd_Message fd)))).
Proof.
  intros Hkind.
  assert (allowedDepth > 0 → ∀ q,
            getRandValue newDynamicProtoRand allowedDepth fd q
              = (rm ← newDynamicProtoRand (fd_Message fd) (allowedDepth - 1);
                 mret (ValueOfMessage rm)) q) as Hpos.
  { intros Hd q. unfold getRandValue. rewrite Hkind.
    by rewrite decide_True by done. }
  assert (allowedDepth = 0 → ∀ q,
            getRandValue newDynamicProtoRand allowedDepth fd q
              = (Ok (ValueOfMessage (NewMessage (fd_Message fd))), q)) as Hzero.
  { intros -> q. unfold getRandValue. rewrite Hkind.
    by rewrite decide_False by lia. }
  split; [apply newDynamicProtoRand_unfold|].
  split; [intros Hd; by apply Hpos|].
  split; [intros Hd; by apply Hzero|].
  do 3 (split; [reflexivity|]).
  intros dm p' Hrun Hnums Hin Hcont HisList HisMap.
  apply newDynamicProtoRand_Ok_inv in Hrun as (sel & p1 & Hsel & Hpop).
  assert (skipped sel fd = false) as Hsk by (unfold skipped; by rewrite Hcont).
  destruct (populateFields_plain _ _ _ _ _ _ _ fd Hnums Hpop Hin Hsk HisList HisMap)
    as (v & p2 & p3 & Hv & Hknown).
  split; intros Hd.
  - rewrite (Hpos Hd) in Hv.
    apply bind_Ok_inv in Hv as (rm & p4 & Hrm & [= <- <-]).
    exists rm, p2, p4. done.
  - rewrite (Hzero Hd) in Hv. injection Hv as <- _. done.
Qed.

(** C2. In every message the generator returns, every oneof group of
    its descriptor that has members has exactly one populated member:
    one member is populated, and any populated member is that one.
    The descriptor is taken to be a valid one ([wellFormed]). *)
Theorem oneof_exactly_one_member `{RandSource} `{ProtoReflect}
    (mds : MessageDescriptor) (allowedDepth : Z) (p p' : ProtoRand)
    (dm : Message) (oneOf : OneofDescriptor) :
  wellFormed mds →
  newDynamicProtoRand mds allowedDepth p = (Ok dm, p') →
  oneOf ∈ md_Oneofs mds →
  od_Fields oneOf ≠ [] →
  ∃ fd, fd ∈ od_Fields oneOf
        ∧ Has dm fd
        ∧ ∀ fd', fd' ∈ od_Fields oneOf → Has dm fd' → fd' = fd.
Proof.
  intros (Hnums & Hnames & Hmembers) Hrun Hin _.
  apply newDynamicProtoRand_Ok_inv in Hrun as (sel & p1 & Hsel & Hpop).
  destruct (chooseOneOfs_records _ _ _ _ _ _ Hnames Hsel Hin)
    as (fd & Hfd & Hrec).
  destruct (Hmembers _ _ Hin Hfd) as [Hfield Hcont].
  assert (skipped sel fd = false) as Hsk.
  { rewrite (skipped_member _ _ _ Hcont), Hrec. cbn.
    by rewrite bool_decide_eq_false; intros Hne; apply Hne. }
  exists fd. split; [done|]. split.
  { destruct (populateFields_sets _ _ _ _ _ _ _ fd Hnums
                (NewMessage_unset mds (md_Fields mds)) Hpop Hfield Hsk)
      as (v & Hv & _).
    unfold Has. by rewrite Hv. }
  intros fd' Hfd' Hhas.
  destruct (Hmembers _ _ Hin Hfd') as [Hfield' Hcont'].
  destruct (populateFields_origin _ _ _ _ _ _ _ _ Hpop Hhas)
    as [Hinit|(fd'' & Hin'' & Hsk'' & Hnum'')].
  { cbn in Hinit. rewrite lookup_empty in Hinit. by destruct Hinit. }
  assert (fd'' = fd') as -> by (eapply NoDup_fmap_elem_inj; eauto).
  rewrite (skipped_member _ _ _ Hcont'), Hrec in Hsk''. cbn in Hsk''.
  apply bool_decide_eq_false in Hsk''.
  eapply NoDup_fmap_elem_inj; eauto.
  destruct (decide (fd_Number fd = fd_Number fd')); [done|by destruct Hsk''].
Qed.

(** C6. In every message the generator returns, a repeated field holds
    a list of exactly one element and a map field a map of exactly one
    entry, whatever the element kind, the budget and the generator
    state.  The field numbers of the descriptor are distinct, and the
    field is not a member of a oneof (protobuf admits neither repeated
    nor map fields in a oneof). *)
Theorem collections_hold_one_element `{RandSource} `{ProtoReflect}
    (mds : MessageDescriptor) (allowedDepth : Z) (p p' : ProtoRand)
    (dm : Message) (fd : FieldDescriptor) :
  NoDup (fd_Number <$> md_Fields mds) →
  newDynamicProtoRand mds allowedDepth p = (Ok dm, p') →
  fd ∈ md_Fields mds →
  fd_ContainingOneof fd = None →
  (fd_IsList fd = true →
     ∃ x, known dm !! fd_Number fd = Some (ValueOfList [x]))
  ∧ (fd_IsList fd = false → fd_IsMap fd = true →
     ∃ k x, known dm !! fd_Number fd = Some (ValueOfMap {[k := x]})
            ∧ size ({[k := x]} : gmap MapKey Value) = 1%nat).
Proof.
  intros Hnums Hrun Hin Hcont.
  apply newDynamicProtoRand_Ok_inv in Hrun as (sel & p1 & Hsel & Hpop).
  assert (skipped sel fd = false) as Hsk by (unfold skipped; by rewrite Hcont).
  destruct (populateFields_sets _ _ _ _ _ _ _ fd Hnums
              (NewMessage_unset mds (md_Fields mds)) Hpop Hin Hsk)
    as (v & Hv & Hone).
  unfold holdsOne in Hone. split.
  - intros HisList. rewrite HisList in Hone. destruct Hone as [x ->]. eauto.
  - intros HisList HisMap. rewrite HisList, HisMap in Hone.
    destruct Hone as (k & x & ->). exists k, x. split; [done|].
    apply map_size_singleton.
Qed.

(** ** Failure of a generation call *)

Section FailureFacts.
Context `{RandSource} `{ProtoReflect}.

Lemma Value_List_run v p :
  (∃ l, Value_List v p = (Ok l, p)) ∨ Value_List v p = (Panicked TypeMismatch, p).
Proof. destruct v; cbn; eauto. Qed.

Lemma Value_Map_run v p :
  (∃ mp, Value_Map v p = (Ok mp, p)) ∨ Value_Map v p = (Panicked TypeMismatch, p).
Proof. destruct v; cbn; eauto. Qed.

Lemma Value_MapKey_not_Err v p e p' : Value_MapKey v p ≠ (Err e, p').
Proof. apply avoids_isError_run, avoids_Value_MapKey, isError_panic. Qed.

Lemma populateFields_app gv sel pre post dm p :
  populateFields gv sel (pre ++ post) dm p
    = (populateFields gv sel pre dm ≫= populateFields gv sel post) p.
Proof.
  revert dm p. induction pre as [|fd pre IH]; intros dm p; [reflexivity|].
  cbn [app populateFields]. rewrite !bind_run.
  destruct (populateField gv sel fd dm p) as [[dm1|e|w] p1]; [|done|done].
  rewrite IH. by rewrite bind_run.
Qed.

(** An error of the second loop is the error of the first field whose
    turn fails; the fields before it went through. *)
Lemma populateFields_Err_inv gv sel fds dm p e p' :
  populateFields gv sel fds dm p = (Err e, p') →
  ∃ pre fd post dm1 p1,
    fds = pre ++ fd :: post
    ∧ populateFields gv sel pre dm p = (Ok dm1, p1)
    ∧ populateField gv sel fd dm1 p1 = (Err e, p').
Proof.
  revert dm p. induction fds as [|fd rest IH]; intros dm p; cbn [populateFields];
    [done|].
  intros [Hfd|(dm1 & p1 & Hfd & Hrest)]%bind_Err_inv.
  - exists [], fd, rest, dm, p. done.
  - destruct (IH _ _ Hrest) as (pre & fd' & post & dm2 & p2 & -> & Hpre & Hfd').
    exists (fd :: pre), fd', post, dm2, p2. split; [done|]. split; [|done].
    cbn [populateFields]. by erewrite bind_Ok_run by exact Hfd.
Qed.

(** A turn of the second loop fails with an error exactly when one of
    the calls of [getRandValue] it makes does. *)
Lemma populateField_Err_iff gv sel fd dm p e p' :
  populateField gv sel fd dm p = (Err e, p')
  ↔ ∃ vfd p3, handsOver gv sel fd dm p vfd p3 ∧ gv vfd p3 = (Err e, p').
Proof.
  unfold populateField, handsOver.
  destruct (skipped sel fd); [split; [done|by intros (? & ? & [? _] & _)]|].
  destruct (fd_IsList fd).
  { destruct (Mutable dm fd) as [lv dm1]. cbn [fst].
    rewrite bind_run.
    destruct (Value_List_run lv p) as [[l Hl]| Hl]; rewrite Hl; split.
    - intros [Hgv|(x & p2 & _ & Hret)]%bind_Err_inv; [|done].
      exists fd, p. eauto 10.
    - intros (vfd & p3 & (_ & _ & -> & ->) & Hgv).
      by erewrite bind_Err_run by exact Hgv.
    - done.
    - by intros (vfd & p3 & (_ & [l' Hl'] & _) & _). }
  destruct (fd_IsMap fd).
  { destruct (Mutable dm fd) as [mv dm1]. cbn [fst].
    rewrite bind_run.
    destruct (Value_Map_run mv p) as [[mp Hmp]| Hmp]; rewrite Hmp; split.
    - intros [Hkey|(key & p2 & Hkey & [Hval|(x & p3 & Hval & Hrest)]%bind_Err_inv)]
        %bind_Err_inv.
      + exists (fd_MapKey fd), p. eauto 10.
      + exists (fd_MapValue fd), p2. eauto 10.
      + apply bind_Err_inv in Hrest as [Hk|(k & p4 & _ & Hret)]; [|done].
        by apply Value_MapKey_not_Err in Hk.
    - intros (vfd & p3 & (_ & _ & [[-> ->]|[-> [key Hkey]]]) & Hgv).
      + by erewrite bind_Err_run by exact Hgv.
      + erewrite bind_Ok_run by exact Hkey.
        by erewrite bind_Err_run by exact Hgv.
    - done.
    - by intros (vfd & p3 & (_ & [mp' Hmp'] & _) & _). }
  split.
  - intros [Hgv|(x & p2 & _ & Hret)]%bind_Err_inv; [|done].
    exists fd, p. eauto.
  - intros (vfd & p3 & (_ & -> & ->) & Hgv).
    by erewrite bind_Err_run by exact Hgv.
Qed.

(** [getRandValue] fails with an error exactly when the kind has no
    dispatch entry, or the kind is [MessageKind], the budget is
    positive and the recursive call fails. *)
Lemma getRandValue_Err_iff self d vfd p e p' :
  getRandValue self d vfd p = (Err e, p')
  ↔ (hasDispatchEntry (fd_Kind vfd) = false
     ∧ e = UnsupportedFieldKind (fd_Kind vfd) ∧ p' = p)
    ∨ (fd_Kind vfd = MessageKind ∧ d > 0
       ∧ self (fd_Message vfd) (d - 1) p = (Err e, p')).
Proof.
  destruct (decide (fd_Kind vfd = MessageKind)) as [Hmsg|Hleaf].
  { unfold getRandValue. rewrite Hmsg. cbn [hasDispatchEntry]. case_decide; split.
    - intros [Hself|(rm & p1 & _ & Hret)]%bind_Err_inv; [auto|done].
    - intros [[? _]|(_ & _ & Hself)]; [done|].
      by erewrite bind_Err_run by exact Hself.
    - done.
    - intros [[? _]|(_ & ? & _)]; done. }
  destruct (hasDispatchEntry (fd_Kind vfd)) eqn:Hentry.
  { split.
    - intros Hrun. exfalso. revert Hrun.
      apply avoids_isError_run, avoids_getRandValue_leaf; auto using isError_panic.
    - intros [[? _]|[? _]]; done. }
  unfold getRandValue. destruct (fd_Kind vfd); try done. split.
  - intros [= <- <-]. left. done.
  - intros [(_ & -> & ->)|[? _]]; done.
Qed.

Lemma arrivesAt_Err mds d p sel fd dm p2 e p' :
  arrivesAt mds d p sel fd dm p2 →
  populateField (getRandValue newDynamicProtoRand d) sel fd dm p2 = (Err e, p') →
  newDynamicProtoRand mds d p = (Err e, p').
Proof.
  intros (p1 & pre & post & Hsel & Hfields & Hpre) Hfd.
  rewrite newDynamicProtoRand_unfold. unfold newDynamicProtoRandBody.
  erewrite bind_Ok_run by exact Hsel.
  rewrite Hfields, populateFields_app.
  erewrite bind_Ok_run by exact Hpre.
  cbn [populateFields]. by erewrite bind_Err_run by exact Hfd.
Qed.

Lemma newDynamicProtoRand_Err_inv mds d p e p' :
  newDynamicProtoRand mds d p = (Err e, p') →
  ∃ sel fd dm p2,
    arrivesAt mds d p sel fd dm p2
    ∧ populateField (getRandValue newDynamicProtoRand d) sel fd dm p2 = (Err e, p').
Proof.
  rewrite newDynamicProtoRand_unfold. unfold newDynamicProtoRandBody.
  intros [Hsel|(sel & p1 & Hsel & Hpop)]%bind_Err_inv.
  { by apply chooseOneOfs_not_Err in Hsel. }
  apply populateFields_Err_inv in Hpop
    as (pre & fd & post & dm & p2 & Hfields & Hpre & Hfd).
  exists sel, fd, dm, p2. split; [|done].
  exists p1, pre, post. done.
Qed.

Lemma Dispatches_unsupported_fails mds d p vfd p3 :
  Dispatches mds d p vfd p3 →
  hasDispatchEntry (fd_Kind vfd) = false →
  newDynamicProtoRand mds d p = (Err (UnsupportedFieldKind (fd_Kind vfd)), p3).
Proof.
  induction 1 as [mds d p sel fd dm p2 vfd p3 Harr Hhand
                 |mds d p sel fd dm p2 vfd p3 vfd' p4 Harr Hhand Hkind Hd _ IH];
    intros Hentry.
  - eapply arrivesAt_Err; [exact Harr|].
    apply populateField_Err_iff. exists vfd, p3. split; [done|].
    apply getRandValue_Err_iff. left. done.
  - eapply arrivesAt_Err; [exact Harr|].
    apply populateField_Err_iff. exists vfd, p3. split; [done|].
    apply getRandValue_Err_iff. right. auto.
Qed.

Lemma fails_Dispatches_unsupported n : ∀ mds d p e p',
  (Z.to_nat d ≤ n)%nat →
  newDynamicProtoRand mds d p = (Err e, p') →
  ∃ vfd, Dispatches mds d p vfd p'
         ∧ hasDispatchEntry (fd_Kind vfd) = false
         ∧ e = UnsupportedFieldKind (fd_Kind vfd).
Proof.
  induction n as [|n IH]; intros mds d p e p' Hn Hrun.
  all: apply newDynamicProtoRand_Err_inv in Hrun as (sel & fd & dm & p2 & Harr & Hfd).
  all: apply populateField_Err_iff in Hfd as (vfd & p3 & Hhand & Hgv).
  all: apply getRandValue_Err_iff in Hgv as [(Hentry & -> & ->)|(Hkind & Hd & Hrec)].
  all: try (exists vfd; split; [by eapply Dispatches_here|done]).
  - exfalso. lia.
  - assert (Z.to_nat (d - 1) ≤ n)%nat as Hn' by lia.
    destruct (IH _ _ _ _ _ Hn' Hrec) as (vfd' & Hdisp & Hentry & ->).
    exists vfd'. split; [by eapply Dispatches_nested|done].
Qed.

End FailureFacts.

(** C5. A generation call returns an error exactly when its traversal
    hands [getRandValue] a descriptor (a field, a list element, a map
    key or a map value, in the message or in a nested message it
    recurses into) whose kind has no dispatch entry.  The error is
    [UnsupportedFieldKind] of that kind, and the call ends on the spot:
    the generator is left in the state in which the kind was met, and
    the result is the error alone, without a message. *)
Theorem generation_fails_iff_unsupported_kind `{RandSource} `{ProtoReflect}
    (mds : MessageDescriptor) (allowedDepth : Z) (p p' : ProtoRand) (e : error) :
  newDynamicProtoRand mds allowedDepth p = (Err e, p')
  ↔ ∃ vfd, Dispatches mds allowedDepth p vfd p'
           ∧ hasDispatchEntry (fd_Kind vfd) = false
           ∧ e = UnsupportedFieldKind (fd_Kind vfd).
Proof.
  split.
  - by apply (fails_Dispatches_unsupported (Z.to_nat allowedDepth)).
  - intros (vfd & Hdisp & Hentry & ->).
    by apply Dispatches_unsupported_fails.
Qed.

(** * Further properties of the package *)

(** ** Strings and bytes *)

Section LeafFacts.
Context `{RandSource} `{ProtoReflect}.

Lemma fmap_Ok_inv {A B} (f : A → B) (m : M A) p b p' :
  (f <$> m) p = (Ok b, p') → ∃ a, m p = (Ok a, p') ∧ b = f a.
Proof.
  rewrite fmap_run. destruct (m p) as [[a|e|w] p1]; [|done|done].
  intros [= <- <-]. eauto.
Qed.

Lemma fmap_Ok_run {A B} (f : A → B) (m : M A) p a p' :
  m p = (Ok a, p') → (f <$> m) p = (Ok (f a), p').
Proof. intros Hm. by rewrite fmap_run, Hm. Qed.

Lemma len_Chars : len Chars = 62.
Proof. reflexivity. Qed.

(** The loop of [randString] returns as many characters as it is asked
    for, all of them from [Chars]. *)
Lemma randRunes_run n p :
  ∃ b p', randRunes n p = (Ok b, p')
          ∧ length b = n ∧ ∀ c, c ∈ b → c ∈ Chars.
Proof.
  revert p. induction n as [|n IH]; intros p; cbn [randRunes].
  { exists [], p. split; [done|]. split; [done|]. by intros c Hc; inversion Hc. }
  destruct (randIntn_run (len Chars) p) as [Hdraw Hrange];
    [by rewrite len_Chars|].
  destruct (Get_in_range Chars _
              (mkProtoRand (Intn (len Chars) (rand p)).2) Hrange)
    as (c & Hc & Hget).
  destruct (IH (mkProtoRand (Intn (len Chars) (rand p)).2))
    as (b & p' & Hrest & Hlen & Hall).
  exists (c :: b), p'. split.
  { erewrite bind_Ok_run by exact Hdraw.
    erewrite bind_Ok_run by exact Hget.
    by erewrite bind_Ok_run by exact Hrest. }
  split; [cbn; by rewrite Hlen|].
  intros c' [->|Hc']%elem_of_cons; [by eapply list_elem_of_lookup_2|by apply Hall].
Qed.

Lemma length_string_of_list_ascii (b : list ascii) :
  String.length (string_of_list_ascii b) = length b.
Proof. induction b as [|c b IH]; cbn; [done|by rewrite IH]. Qed.

Lemma randString_run p :
  ∃ b p', randString p = (Ok (string_of_list_ascii b), p')
          ∧ length b = 10%nat ∧ ∀ c, c ∈ b → c ∈ Chars.
Proof.
  destruct (randRunes_run 10 p) as (b & p' & Hrun & Hlen & Hall).
  exists b, p'. split; [|done].
  unfold randString. by erewrite bind_Ok_run by exact Hrun.
Qed.

Lemma Chars_alphanumeric :
  Forall alphanumeric (byte_of_ascii <$> Chars).
Proof.
  unfold alphanumeric. apply (bool_decide_unpack _). vm_compute. exact I.
Qed.

End LeafFacts.

(** X1. [randString] always returns: a string of exactly ten
    characters, each of them one of the 62 characters of [Chars]. *)
Theorem randString_ten_from_Chars `{RandSource} (p : ProtoRand) :
  ∃ s p', randString p = (Ok s, p')
          ∧ String.length s = 10%nat
          ∧ ∀ c, c ∈ list_ascii_of_string s → c ∈ Chars.
Proof.
  destruct (randString_run p) as (b & p' & Hrun & Hlen & Hall).
  exists (string_of_list_ascii b), p'. split; [done|].
  split; [by rewrite length_string_of_list_ascii|].
  by rewrite list_ascii_of_string_of_list_ascii.
Qed.

(** X2. [randBytes] always returns: the ten bytes of the string that
    [randString] returns from the same state, each the code of an ASCII
    digit or letter, and it leaves the generator where [randString]
    does. *)
Theorem randBytes_ten_alphanumerics `{RandSource} (p : ProtoRand) :
  ∃ s bs p', randString p = (Ok s, p')
             ∧ randBytes p = (Ok bs, p')
             ∧ bs = list_byte_of_string s
             ∧ length bs = 10%nat
             ∧ ∀ x, x ∈ bs → alphanumeric x.
Proof.
  destruct (randString_run p) as (b & p' & Hrun & Hlen & Hall).
  exists (string_of_list_ascii b), (list_byte_of_string (string_of_list_ascii b)), p'.
  split; [done|]. split.
  { unfold randBytes. by erewrite bind_Ok_run by exact Hrun. }
  split; [done|].
  unfold list_byte_of_string. rewrite list_ascii_of_string_of_list_ascii.
  split; [by rewrite length_map|].
  intros x Hx. change (map byte_of_ascii b) with (byte_of_ascii <$> b) in Hx.
  apply list_elem_of_fmap in Hx as (c & -> & Hc).
  pose proof Chars_alphanumeric as Halnum.
  rewrite list.Forall_forall in Halnum. apply Halnum.
  apply list_elem_of_fmap_2. by apply Hall.
Qed.

(** ** The values that are generated *)

Section ValueFacts.
Context `{RandSource} `{ProtoReflect}.

Lemma chooseEnumValueRandomly_Ok values p n p' :
  chooseEnumValueRandomly values p = (Ok n, p') →
  n = 0 ∨ n ∈ ev_Number <$> values.
Proof.
  unfold chooseEnumValueRandomly. cbv zeta. case_decide.
  - intros [= <- <-]. by left.
  - intros (i & p1 & _ & (v & p2 & Hget & [= <- <-])%bind_Ok_inv)%bind_Ok_inv.
    right. apply list_elem_of_fmap_2.
    by apply Get_Ok_elem_of in Hget as [? _].
Qed.

Lemma newDynamicProtoRand_typ mds d p dm p' :
  newDynamicProtoRand mds d p = (Ok dm, p') → typ dm = mds.
Proof.
  intros (sel & p1 & _ & Hpop)%newDynamicProtoRand_Ok_inv.
  by rewrite (populateFields_typ _ _ _ _ _ _ _ Hpop).
Qed.

(** A message value comes from the [MessageKind] case: from the
    recursive call while the budget is positive, the empty instance
    otherwise. *)
Lemma getRandValue_Ok_message self d fd p m p' :
  getRandValue self d fd p = (Ok (ValueOfMessage m), p') →
  fd_Kind fd = MessageKind
  ∧ ((d > 0 ∧ self (fd_Message fd) (d - 1) p = (Ok m, p'))
     ∨ (¬ d > 0 ∧ m = NewMessage (fd_Message fd))).
Proof.
  unfold getRandValue.
  destruct (fd_Kind fd);
    try (by intros (a & _ & [=])%fmap_Ok_inv); [|done].
  case_decide.
  - intros (rm & p1 & Hrm & [= <- <-])%bind_Ok_inv. auto.
  - intros [= <- <-]. auto.
Qed.

(** Whatever [getRandValue] returns has the type and the range of the
    kind of the descriptor, provided the recursive call returns
    messages of the type it is asked for. *)
Lemma getRandValue_fits self d fd p v p' :
  (∀ m q rm q', self m (d - 1) q = (Ok rm, q') → typ rm = m) →
  getRandValue self d fd p = (Ok v, p') →
  valueFits fd v.
Proof.
  intros Hself. unfold getRandValue, valueFits.
  destruct (fd_Kind fd) eqn:Hkind.
  all: try (intros (a & Hdraw & ->)%fmap_Ok_inv; revert Hdraw).
  all: try (unfold randInt32, randInt64, randUint32, randUint64,
              randFloat32, randFloat64; rewrite draw_run; intros [= <- _]).
  all: try done.
  - intros Hn. by eapply chooseEnumValueRandomly_Ok.
  - apply Int31_range.
  - apply Int31_range.
  - apply Uint32_range.
  - apply Int63_range.
  - apply Int63_range.
  - apply Uint64_range.
  - apply Int31_range.
  - apply Uint32_range.
  - apply Int63_range.
  - apply Uint64_range.
  - intros Hs. destruct (randString_run p) as (b & p1 & Hrun & Hlen & Hall).
    rewrite Hrun in Hs. injection Hs as <- _.
    split; [by rewrite length_string_of_list_ascii|].
    by rewrite list_ascii_of_string_of_list_ascii.
  - unfold randBytes. intros (s & p1 & Hs & [= <- <-])%bind_Ok_inv.
    destruct (randString_run p) as (b & p2 & Hrun & Hlen & Hall).
    rewrite Hrun in Hs. injection Hs as <- _.
    unfold list_byte_of_string. rewrite list_ascii_of_string_of_list_ascii.
    split; [by rewrite length_map|].
    intros x Hx. change (map byte_of_ascii b) with (byte_of_ascii <$> b) in Hx.
    apply list_elem_of_fmap in Hx as (c & -> & Hc).
    apply list_elem_of_fmap_2. by apply Hall.
  - case_decide.
    + intros (rm & p1 & Hrm & [= <- <-])%bind_Ok_inv. by eapply Hself.
    + intros [= <- <-]. done.
Qed.

(** One turn of the second loop on a field that is not skipped and was
    unset stores what [getRandValue] returned: the value itself, a list
    of it, or a map from the key to the value. *)
Lemma populateField_Ok_stored (P : FieldDescriptor → Value → Prop)
    gv sel fd dm p dm1 p1 :
  (∀ vfd q v q', gv vfd q = (Ok v, q') → P vfd v) →
  populateField gv sel fd dm p = (Ok dm1, p1) →
  skipped sel fd = false →
  known dm !! fd_Number fd = None →
  ∃ v : Value,
    known dm1 = <[fd_Number fd := v]> (known dm)
    ∧ if fd_IsList fd then ∃ x : Value, v = ValueOfList [x] ∧ P fd x
      else if fd_IsMap fd then
        ∃ (key : Value) k (x : Value) q,
          v = ValueOfMap {[k := x]}
          ∧ P (fd_MapKey fd) key
          ∧ Value_MapKey key q = (Ok k, q)
          ∧ P (fd_MapValue fd) x
      else P fd v.
Proof.
  intros Hgv Hrun Hsk Hnone. unfold populateField in Hrun. rewrite Hsk in Hrun.
  destruct (fd_IsList fd) eqn:HisList.
  { destruct (Mutable dm fd) as [lv dm'] eqn:Hmut.
    apply bind_Ok_inv in Hrun as (l & p2 & Hl & (x & p3 & Hx & [= <- <-])%bind_Ok_inv).
    destruct (known_Set_Mutable _ _ _ _ (ValueOfList (l ++ [x])) Hmut)
      as (_ & Hknown & Hfresh).
    specialize (Hfresh Hnone). subst lv.
    unfold NewField in Hl. rewrite HisList in Hl.
    destruct (fd_IsMap fd); [done|]. cbn in Hl. injection Hl as <- <-.
    eexists. split; [exact Hknown|]. exists x. split; [done|].
    eapply Hgv; exact Hx. }
  destruct (fd_IsMap fd) eqn:HisMap.
  { destruct (Mutable dm fd) as [mv dm'] eqn:Hmut.
    apply bind_Ok_inv in Hrun as (mp & p2 & Hmp & (key & p3 & Hkey &
             (x & p4 & Hx & (k & p5 & Hk & [= <- <-])%bind_Ok_inv)
               %bind_Ok_inv)%bind_Ok_inv).
    destruct (known_Set_Mutable _ _ _ _ (ValueOfMap (<[k:=x]> mp)) Hmut)
      as (_ & Hknown & Hfresh).
    specialize (Hfresh Hnone). subst mv.
    unfold NewField in Hmp. rewrite HisMap in Hmp.
    cbn in Hmp. injection Hmp as <- <-.
    eexists. split; [exact Hknown|]. exists key, k, x, p4.
    split; [by rewrite insert_empty|].
    split; [eapply Hgv; exact Hkey|]. split; [|eapply Hgv; exact Hx].
    destruct key; cbv [Value_MapKey mret M_ret gopanic] in Hk |- *;
      by simplify_eq. }
  apply bind_Ok_inv in Hrun as (x & p2 & Hx & [= <- <-]).
  exists x. split; [by destruct dm|]. eapply Hgv; exact Hx.
Qed.

Lemma populateFields_stored (P : FieldDescriptor → Value → Prop)
    gv sel fds dm p dm' p' (fd : FieldDescriptor) (v : Value) :
  (∀ vfd q x q', gv vfd q = (Ok x, q') → P vfd x) →
  NoDup (fd_Number <$> fds) →
  (∀ fd', fd' ∈ fds → known dm !! fd_Number fd' = None) →
  populateFields gv sel fds dm p = (Ok dm', p') →
  fd ∈ fds →
  known dm' !! fd_Number fd = Some v →
  if fd_IsList fd then ∃ x : Value, v = ValueOfList [x] ∧ P fd x
  else if fd_IsMap fd then
    ∃ (key : Value) k (x : Value) q,
      v = ValueOfMap {[k := x]}
      ∧ P (fd_MapKey fd) key
      ∧ Value_MapKey key q = (Ok k, q)
      ∧ P (fd_MapValue fd) x
  else P fd v.
Proof.
  intros Hgv. revert dm p. induction fds as [|fd0 rest IH]; intros dm p Hnd Hunset;
    cbn [populateFields]; [by intros _ Hin; inversion Hin|].
  rewrite fmap_cons in Hnd. apply list.NoDup_cons in Hnd as [Hfresh Hnd].
  intros (dm1 & p1 & Hfd & Hrest)%bind_Ok_inv Hin Hv.
  assert (known dm !! fd_Number fd0 = None) as Hnone by (apply Hunset; left).
  apply elem_of_cons in Hin as [Heq|Hin].
  - subst fd0.
    rewrite (populateFields_frame _ _ _ _ _ _ _ _ Hrest Hfresh) in Hv.
    destruct (skipped sel fd) eqn:Hsk.
    { apply populateField_Ok in Hfd as [_ [[_ ->]|[? _]]]; congruence. }
    destruct (populateField_Ok_stored P _ _ _ _ _ _ _ Hgv Hfd Hsk Hnone)
      as (v0 & Hk & Hform).
    rewrite Hk, lookup_insert_eq in Hv. by injection Hv as <-.
  - eapply IH; eauto.
    intros fd' Hin'.
    apply populateField_Ok in Hfd as [_ [[_ ->]|[_ (v0 & -> & _)]]];
      [apply Hunset; by right|].
    rewrite lookup_insert_ne; [apply Hunset; by right|].
    intros Heq. apply Hfresh. rewrite Heq. by apply list_elem_of_fmap_2.
Qed.

(** The second loop keeps what is set and sets every field that it does
    not skip. *)
Lemma populateFields_populates gv sel fds dm p dm' p' :
  populateFields gv sel fds dm p = (Ok dm', p') →
  (∀ n, is_Some (known dm !! n) → is_Some (known dm' !! n))
  ∧ (∀ fd, fd ∈ fds → skipped sel fd = false →
       is_Some (known dm' !! fd_Number fd)).
Proof.
  revert dm p. induction fds as [|fd0 rest IH]; intros dm p; cbn [populateFields].
  { intros [= <- <-]. split; [done|]. by intros fd Hin; inversion Hin. }
  intros (dm1 & p1 & Hfd & Hrest)%bind_Ok_inv.
  destruct (IH _ _ Hrest) as [Hkeep Hset].
  apply populateField_Ok in Hfd as [_ Hstep].
  assert (∀ n, is_Some (known dm !! n) → is_Some (known dm1 !! n)) as Hkeep1.
  { intros n Hn. destruct Hstep as [[_ ->]|[_ (v & -> & _)]]; [done|].
    destruct (decide (fd_Number fd0 = n)) as [->|Hne].
    - rewrite lookup_insert_eq. eauto.
    - by rewrite lookup_insert_ne. }
  split; [auto|].
  intros fd [->|Hin]%elem_of_cons Hsk; [|by apply Hset].
  apply Hkeep. destruct Hstep as [[? _]|[_ (v & -> & _)]]; [congruence|].
  rewrite lookup_insert_eq. eauto.
Qed.

End ValueFacts.

(** X3. Whatever [getRandValue] returns for a descriptor has the Go
    type and the range of its kind: a signed 32-bit (64-bit) kind a
    value in [[0, 2^31)] ([[0, 2^63)]), an unsigned kind a value in
    [[0, 2^32)] ([[0, 2^64)]), a string ten characters of [Chars], bytes
    their ten codes, an enum [0] or a declared number, a message kind a
    message of the message type of the field; a [GroupKind] returns
    nothing. *)
Theorem getRandValue_value_fits_kind `{RandSource} `{ProtoReflect}
    (allowedDepth : Z) (fd : FieldDescriptor) (p p' : ProtoRand) (v : Value) :
  getRandValue newDynamicProtoRand allowedDepth fd p = (Ok v, p') →
  valueFits fd v.
Proof.
  apply getRandValue_fits. intros m q rm q'. apply newDynamicProtoRand_typ.
Qed.

(** X4. In a returned message over distinct field numbers, what is
    stored for a field fits the field: a plain field holds a value of
    its kind, a repeated field a list of one value of its kind, a map
    field one entry whose key is the value drawn for the key
    descriptor and whose value fits the value descriptor. *)
Theorem generated_fields_fit `{RandSource} `{ProtoReflect}
    (mds : MessageDescriptor) (allowedDepth : Z) (p p' : ProtoRand)
    (dm : Message) (fd : FieldDescriptor) (v : Value) :
  NoDup (fd_Number <$> md_Fields mds) →
  newDynamicProtoRand mds allowedDepth p = (Ok dm, p') →
  fd ∈ md_Fields mds →
  known dm !! fd_Number fd = Some v →
  storedFits fd v.
Proof.
  intros Hnums (sel & p1 & _ & Hpop)%newDynamicProtoRand_Ok_inv Hin Hv.
  unfold storedFits.
  eapply (populateFields_stored valueFits); eauto.
  - intros vfd q x q'. apply getRandValue_fits.
    intros m q0 rm q0'. apply newDynamicProtoRand_typ.
  - apply NewMessage_unset.
Qed.

(** X5. A returned message has the shape of its descriptor: it carries
    the descriptor it was generated from, every number it stores is the
    number of a field of that descriptor, and every field outside a
    oneof is stored. *)
Theorem generated_message_is_schema_shaped `{RandSource} `{ProtoReflect}
    (mds : MessageDescriptor) (allowedDepth : Z) (p p' : ProtoRand)
    (dm : Message) :
  newDynamicProtoRand mds allowedDepth p = (Ok dm, p') →
  typ dm = mds
  ∧ (∀ n, is_Some (known dm !! n) →
       ∃ fd, fd ∈ md_Fields mds ∧ fd_Number fd = n)
  ∧ (∀ fd, fd ∈ md_Fields mds → fd_ContainingOneof fd = None →
       is_Some (known dm !! fd_Number fd)).
Proof.
  intros Hrun. split; [by eapply newDynamicProtoRand_typ|].
  apply newDynamicProtoRand_Ok_inv in Hrun as (sel & p1 & _ & Hpop).
  split.
  - intros n Hn.
    destruct (populateFields_origin _ _ _ _ _ _ _ _ Hpop Hn)
      as [Hinit|(fd & Hin & _ & Hnum)]; [|eauto].
    cbn in Hinit. rewrite lookup_empty in Hinit. by destruct Hinit.
  - intros fd Hin Hcont.
    apply (populateFields_populates _ _ _ _ _ _ _ Hpop); [done|].
    unfold skipped. by rewrite Hcont.
Qed.

(** ** Schemas from which generation cannot fail *)

Section SuccessFacts.
Context `{RandSource} `{ProtoReflect}.

Lemma chooseEnumValueRandomly_returns values p :
  ∃ n p', chooseEnumValueRandomly values p = (Ok n, p').
Proof.
  unfold chooseEnumValueRandomly. cbv zeta. case_decide; [by eexists _, _|].
  destruct (randIntn_run (len values - 1) p) as [Hdraw Hrange]; [lia|].
  destruct (Get_in_range values (Intn (len values - 1) (rand p)).1
              (mkProtoRand (Intn (len values - 1) (rand p)).2))
    as (v & _ & Hget); [lia|].
  eexists _, _. erewrite bind_Ok_run by exact Hdraw.
  by erewrite bind_Ok_run by exact Hget.
Qed.

(** Every kind with a dispatch entry other than [MessageKind] is served
    by a draw that returns. *)
Lemma getRandValue_leaf_returns self d fd p :
  hasDispatchEntry (fd_Kind fd) = true → fd_Kind fd ≠ MessageKind →
  ∃ v p', getRandValue self d fd p = (Ok v, p').
Proof.
  intros Hentry Hleaf. unfold getRandValue.
  destruct (fd_Kind fd); try done.
  all: try (eexists _, _; apply fmap_Ok_run, draw_run).
  - eexists _, _. apply fmap_Ok_run. unfold randBool.
    erewrite bind_Ok_run by apply draw_run. reflexivity.
  - destruct (chooseEnumValueRandomly_returns (fd_Enum_Values fd) p)
      as (n & p' & Hn).
    eexists _, _. apply fmap_Ok_run. exact Hn.
  - destruct (randString_run p) as (b & p' & Hrun & _).
    eexists _, _. apply fmap_Ok_run. exact Hrun.
  - destruct (randString_run p) as (b & p' & Hrun & _).
    eexists _, _. apply fmap_Ok_run. unfold randBytes.
    by erewrite bind_Ok_run by exact Hrun.
Qed.

Lemma chooseOneOfs_returns oneOfs sel p :
  Forall (λ oneOf, od_Fields oneOf ≠ []) oneOfs →
  ∃ sel' p', chooseOneOfs oneOfs sel p = (Ok sel', p').
Proof.
  intros Hne. revert sel p.
  induction Hne as [|o rest Ho _ IH]; intros sel p; cbn [chooseOneOfs].
  { by eexists _, _. }
  destruct (chooseOneOfFieldRandomly_nonempty o p Ho) as (fd & p1 & Hrun & _).
  erewrite bind_Ok_run by exact Hrun. apply IH.
Qed.

(** One turn of the second loop returns when [getRandValue] returns on
    the descriptors it is handed and the key it returns can be a key. *)
Lemma populateField_returns gv sel fd dm p :
  known dm !! fd_Number fd = None →
  (fd_IsList fd = true → fd_IsMap fd = false) →
  (∀ vfd q, vfd ∈ valueDescriptors fd → ∃ v q', gv vfd q = (Ok v, q')) →
  (fd_IsList fd = false → fd_IsMap fd = true →
   ∀ q key q', gv (fd_MapKey fd) q = (Ok key, q') →
               ∃ k, Value_MapKey key = λ q0, (Ok k, q0)) →
  ∃ dm1 p1, populateField gv sel fd dm p = (Ok dm1, p1).
Proof.
  intros Hnone Hexcl Hgv Hkey. unfold populateField, valueDescriptors in *.
  destruct (skipped sel fd); [by eexists _, _|].
  unfold Mutable. rewrite Hnone. unfold NewField.
  destruct (fd_IsList fd) eqn:HisList.
  { rewrite (Hexcl eq_refl).
    destruct (Hgv fd p ltac:(left)) as (x & p1 & Hx).
    eexists _, _. cbn [Value_List]. rewrite bind_run, ret_run.
    by erewrite bind_Ok_run by exact Hx. }
  destruct (fd_IsMap fd) eqn:HisMap.
  { destruct (Hgv (fd_MapKey fd) p ltac:(left)) as (key & p1 & Hk).
    destruct (Hgv (fd_MapValue fd) p1 ltac:(right; left)) as (x & p2 & Hx).
    destruct (Hkey eq_refl eq_refl _ _ _ Hk) as [k Hkk].
    eexists _, _. cbn [Value_Map]. rewrite bind_run, ret_run.
    erewrite bind_Ok_run by exact Hk.
    erewrite bind_Ok_run by exact Hx.
    rewrite Hkk. reflexivity. }
  destruct (Hgv fd p ltac:(left)) as (x & p1 & Hx).
  eexists _, _. by erewrite bind_Ok_run by exact Hx.
Qed.

Lemma populateFields_returns gv sel fds dm p :
  NoDup (fd_Number <$> fds) →
  (∀ fd, fd ∈ fds → known dm !! fd_Number fd = None) →
  Forall (λ fd,
    (fd_IsList fd = true → fd_IsMap fd = false)
    ∧ (∀ vfd q, vfd ∈ valueDescriptors fd → ∃ v q', gv vfd q = (Ok v, q'))
    ∧ (fd_IsList fd = false → fd_IsMap fd = true →
       ∀ q key q', gv (fd_MapKey fd) q = (Ok key, q') →
                   ∃ k, Value_MapKey key = λ q0, (Ok k, q0))) fds →
  ∃ dm' p', populateFields gv sel fds dm p = (Ok dm', p').
Proof.
  intros Hnd Hunset Hall. revert dm p Hnd Hunset.
  induction Hall as [|fd rest (Hexcl & Hgv & Hkey) _ IH]; intros dm p Hnd Hunset;
    cbn [populateFields]; [by eexists _, _|].
  rewrite fmap_cons in Hnd. apply list.NoDup_cons in Hnd as [Hfresh Hnd].
  destruct (populateField_returns gv sel fd dm p
              (Hunset fd ltac:(left)) Hexcl Hgv Hkey) as (dm1 & p1 & Hfd).
  erewrite bind_Ok_run by exact Hfd.
  apply IH; [done|].
  intros fd' Hin'.
  apply populateField_Ok in Hfd as [_ [[_ ->]|[_ (v0 & -> & _)]]];
    [apply Hunset; by right|].
  rewrite lookup_insert_ne; [apply Hunset; by right|].
  intros Heq. apply Hfresh. rewrite Heq. by apply list_elem_of_fmap_2.
Qed.

Lemma generation_returns_upto (S : MessageDescriptor → Prop) n :
  closedUnder S →
  ∀ mds d p, (Z.to_nat d ≤ n)%nat → S mds →
    ∃ dm p', newDynamicProtoRand mds d p = (Ok dm, p').
Proof.
  intros Hclosed. induction n as [|n IH]; intros mds d p Hn HS.
  all: destruct (Hclosed mds HS) as ((Hnums & Honeofs & Hfields) & Hnext).
  all: destruct (chooseOneOfs_returns (md_Oneofs mds) ∅ p Honeofs)
         as (sel & p1 & Hsel).
  all: assert (∃ dm p', populateFields (getRandValue newDynamicProtoRand d) sel
                          (md_Fields mds) (NewMessage mds) p1 = (Ok dm, p'))
         as (dm & p' & Hpop);
       [|exists dm, p'; rewrite newDynamicProtoRand_unfold;
         unfold newDynamicProtoRandBody;
         by erewrite bind_Ok_run by exact Hsel].
  all: apply populateFields_returns; [done|apply NewMessage_unset|].
  all: rewrite list.Forall_forall in Hfields, Hnext |- *.
  all: intros fd Hfd; destruct (Hfields fd Hfd) as (Hexcl & Hhash & Hentries).
  all: specialize (Hnext fd Hfd).
  all: rewrite list.Forall_forall in Hentries, Hnext.
  all: split; [done|]; split.
  1, 3: intros vfd q Hvfd;
        destruct (decide (fd_Kind vfd = MessageKind)) as [Hmsg|Hleaf];
        [|by apply getRandValue_leaf_returns, Hleaf; apply Hentries].
  - exists (ValueOfMessage (NewMessage (fd_Message vfd))), q.
    unfold getRandValue. rewrite Hmsg. by rewrite decide_False by lia.
  - unfold getRandValue. rewrite Hmsg. case_decide; [|by eexists _, _].
    assert (Z.to_nat (d - 1) ≤ n)%nat as Hn' by lia.
    destruct (IH (fd_Message vfd) (d - 1) q Hn' (Hnext vfd Hvfd Hmsg))
      as (rm & q' & Hrm).
    eexists _, _. by erewrite bind_Ok_run by exact Hrm.
  - intros HisList HisMap q key q' Hkey.
    assert (valueFits (fd_MapKey fd) key) as Hfits.
    { eapply getRandValue_fits; [|exact Hkey].
      intros m q0 rm q0'. apply newDynamicProtoRand_typ. }
    unfold valueFits in Hfits. specialize (Hhash HisList HisMap).
    destruct (fd_Kind (fd_MapKey fd)), key; try done; by eexists.
  - intros HisList HisMap q key q' Hkey.
    assert (valueFits (fd_MapKey fd) key) as Hfits.
    { eapply getRandValue_fits; [|exact Hkey].
      intros m q0 rm q0'. apply newDynamicProtoRand_typ. }
    unfold valueFits in Hfits. specialize (Hhash HisList HisMap).
    destruct (fd_Kind (fd_MapKey fd)), key; try done; by eexists.
Qed.

End SuccessFacts.

(** X6. Generation returns a message, with no error and no panic, from
    every message type of a set of healthy types that is closed under
    the message types of its fields, at every budget and from every
    generator state: the oneofs have members, the field numbers are
    distinct, every kind has a dispatch entry and map keys can be
    keys. *)
Theorem generation_succeeds_on_healthy_schema `{RandSource} `{ProtoReflect}
    (S : MessageDescriptor → Prop) (mds : MessageDescriptor)
    (allowedDepth : Z) (p : ProtoRand) :
  closedUnder S → S mds →
  ∃ dm p', newDynamicProtoRand mds allowedDepth p = (Ok dm, p').
Proof.
  intros Hclosed HS.
  by apply (generation_returns_upto S (Z.to_nat allowedDepth)).
Qed.

(** ** How deep a generated message nests *)

Section NestingFacts.
Context `{RandSource} `{ProtoReflect}.

(** What one turn of the second loop stores is a list, a map, or the
    value that [getRandValue] returned for the field. *)
Lemma populateField_Ok_form gv sel fd dm p dm1 p1 :
  populateField gv sel fd dm p = (Ok dm1, p1) →
  dm1 = dm
  ∨ ∃ v : Value,
      known dm1 = <[fd_Number fd := v]> (known dm)
      ∧ ((∃ l, v = ValueOfList l) ∨ (∃ mp, v = ValueOfMap mp)
         ∨ ∃ q q', gv fd q = (Ok v, q')).
Proof.
  unfold populateField.
  destruct (skipped sel fd); [intros [= <- <-]; auto|].
  destruct (fd_IsList fd).
  { destruct (Mutable dm fd) as [lv dm'] eqn:Hmut.
    intros (l & p2 & Hl & (x & p3 & Hx & [= <- <-])%bind_Ok_inv)%bind_Ok_inv.
    destruct (known_Set_Mutable _ _ _ _ (ValueOfList (l ++ [x])) Hmut)
      as (_ & Hknown & _).
    right. eexists. split; [exact Hknown|]. left. by eexists. }
  destruct (fd_IsMap fd).
  { destruct (Mutable dm fd) as [mv dm'] eqn:Hmut.
    intros (mp & p2 & Hmp & (key & p3 & Hkey &
             (x & p4 & Hx & (k & p5 & Hk & [= <- <-])%bind_Ok_inv)
               %bind_Ok_inv)%bind_Ok_inv)%bind_Ok_inv.
    destruct (known_Set_Mutable _ _ _ _ (ValueOfMap (<[k:=x]> mp)) Hmut)
      as (_ & Hknown & _).
    right. eexists. split; [exact Hknown|]. right. left. by eexists. }
  intros (x & p2 & Hx & [= <- <-])%bind_Ok_inv.
  right. exists x. split; [by destruct dm|]. right. right. eauto.
Qed.

(** A property of the messages that [getRandValue] returns holds of
    every message that the second loop stores as the value of a field. *)
Lemma populateFields_messages (Q : Message → Prop) gv sel fds dm p dm' p' :
  (∀ fd q m q', gv fd q = (Ok (ValueOfMessage m), q') → Q m) →
  (∀ n m, known dm !! n = Some (ValueOfMessage m) → Q m) →
  populateFields gv sel fds dm p = (Ok dm', p') →
  ∀ n m, known dm' !! n = Some (ValueOfMessage m) → Q m.
Proof.
  intros Hgv. revert dm p.
  induction fds as [|fd rest IH]; intros dm p Hinit; cbn [populateFields].
  { by intros [= <- <-]. }
  intros (dm1 & p1 & Hfd & Hrest)%bind_Ok_inv.
  eapply IH; [|exact Hrest].
  intros n m Hm.
  apply populateField_Ok_form in Hfd as [->|(v & Hk & Hform)]; [by eapply Hinit|].
  rewrite Hk in Hm. destruct (decide (fd_Number fd = n)) as [<-|Hne].
  - rewrite lookup_insert_eq in Hm. injection Hm as ->.
    destruct Hform as [[l [=]]|[[mp [=]]|(q & q' & Hv)]]. by eapply Hgv.
  - rewrite lookup_insert_ne in Hm by done. by eapply Hinit.
Qed.

Lemma descendPath_NewMessage mds path :
  path ≠ [] → descendPath path (NewMessage mds) = None.
Proof. destruct path as [|n rest]; [done|]. intros _. cbn. by rewrite lookup_empty. Qed.

Lemma nesting_bounded_upto n : ∀ mds d p dm p' path,
  (Z.to_nat d ≤ n)%nat →
  newDynamicProtoRand mds d p = (Ok dm, p') →
  (n + 2 ≤ length path)%nat →
  descendPath path dm = None.
Proof.
  induction n as [|n IH]; intros mds d p dm p' path Hn Hrun Hlen.
  all: apply newDynamicProtoRand_Ok_inv in Hrun as (sel & p1 & _ & Hpop).
  all: destruct path as [|num rest]; [cbn in Hlen; lia|]; cbn [descendPath].
  all: destruct (known dm !! num) as [[| | | | | | | | | |m| |]|] eqn:Hnum; try done.
  all: eapply (populateFields_messages (λ m, descendPath rest m = None));
         [| |exact Hpop|exact Hnum].
  all: try (intros k m0 Hinit; cbn in Hinit; by rewrite lookup_empty in Hinit).
  all: intros fd q m0 q' Hm;
       apply getRandValue_Ok_message in Hm as [_ [[Hd Hrec]|[_ ->]]].
  all: try (apply descendPath_NewMessage; destruct rest; [cbn in Hlen; lia|done]).
  - exfalso. lia.
  - eapply IH; [|exact Hrec|cbn in Hlen; lia]. lia.
Qed.

End NestingFacts.

(** X7. A message generated at budget [allowedDepth ≥ 0] nests at most
    [allowedDepth + 1] messages below itself: following message-valued
    fields along any path of [allowedDepth + 2] or more field numbers
    runs out of messages, whatever the schema. *)
Theorem generated_nesting_is_bounded `{RandSource} `{ProtoReflect}
    (mds : MessageDescriptor) (allowedDepth : Z) (p p' : ProtoRand)
    (dm : Message) (path : list Z) :
  newDynamicProtoRand mds allowedDepth p = (Ok dm, p') →
  (Z.to_nat allowedDepth + 2 ≤ length path)%nat →
  descendPath path dm = None.
Proof.
  intros Hrun Hlen.
  by eapply (nesting_bounded_upto (Z.to_nat allowedDepth)).
Qed.

(** ** Budget and oneof selection *)

Section BudgetFacts.
Context `{RandSource} `{ProtoReflect}.

Lemma populateField_ext_in (gv1 gv2 : FieldDescriptor → M Value) sel fd dm p :
  (∀ vfd q, vfd ∈ valueDescriptors fd → gv1 vfd q = gv2 vfd q) →
  populateField gv1 sel fd dm p = populateField gv2 sel fd dm p.
Proof.
  intros Hgv. unfold populateField, valueDescriptors in *.
  destruct (skipped sel fd); [reflexivity|].
  destruct (fd_IsList fd).
  { destruct (Mutable dm fd) as [lv dm1].
    apply bind_ext; [reflexivity|]. intros l p1.
    apply bind_ext; [apply Hgv; left|done]. }
  destruct (fd_IsMap fd).
  { destruct (Mutable dm fd) as [mv dm1].
    apply bind_ext; [reflexivity|]. intros mp p1.
    apply bind_ext; [apply Hgv; left|]. intros key p2.
    apply bind_ext; [apply Hgv; right; left|done]. }
  apply bind_ext; [apply Hgv; left|done].
Qed.

Lemma populateFields_ext_in (gv1 gv2 : FieldDescriptor → M Value) sel fds dm p :
  Forall (λ fd, ∀ vfd q, vfd ∈ valueDescriptors fd → gv1 vfd q = gv2 vfd q) fds →
  populateFields gv1 sel fds dm p = populateFields gv2 sel fds dm p.
Proof.
  intros Hall. revert dm p.
  induction Hall as [|fd rest Hfd _ IH]; intros dm p; [reflexivity|].
  cbn [populateFields]. apply bind_ext; [by apply populateField_ext_in|].
  intros dm' p'. apply IH.
Qed.

End BudgetFacts.

(** X8. For a message type none of whose fields, list elements, map
    keys or map values is of kind [MessageKind], the result does not
    depend on the depth budget. *)
Theorem flat_schema_ignores_budget `{RandSource} `{ProtoReflect}
    (mds : MessageDescriptor) (d1 d2 : Z) (p : ProtoRand) :
  Forall (λ fd, Forall (λ vfd, fd_Kind vfd ≠ MessageKind) (valueDescriptors fd))
    (md_Fields mds) →
  newDynamicProtoRand mds d1 p = newDynamicProtoRand mds d2 p.
Proof.
  intros Hflat. rewrite !newDynamicProtoRand_unfold.
  unfold newDynamicProtoRandBody.
  apply bind_ext; [reflexivity|]. intros sel p1.
  apply populateFields_ext_in.
  eapply list.Forall_impl; [exact Hflat|]. intros fd Hfd vfd q Hvfd.
  rewrite list.Forall_forall in Hfd. specialize (Hfd vfd Hvfd).
  unfold getRandValue. by destruct (fd_Kind vfd).
Qed.

(** X9. On a oneof group that has members the selection returns one of
    them and never fails.  A group of one member yields that member and
    leaves the generator untouched; a larger group yields the member at
    the index drawn by one [Intn] over the number of members. *)
Theorem oneof_selection_returns_member `{RandSource} `{ProtoReflect}
    (oneOf : OneofDescriptor) (p : ProtoRand) :
  od_Fields oneOf ≠ [] →
  ∃ fd p',
    chooseOneOfFieldRandomly oneOf p = (Ok fd, p')
    ∧ fd ∈ od_Fields oneOf
    ∧ (len (od_Fields oneOf) = 1 → od_Fields oneOf = [fd] ∧ p' = p)
    ∧ (2 ≤ len (od_Fields oneOf) →
       od_Fields oneOf
         !! Z.to_nat (Intn (len (od_Fields oneOf)) (rand p)).1 = Some fd
       ∧ p' = mkProtoRand (Intn (len (od_Fields oneOf)) (rand p)).2).
Proof.
  intros Hne. unfold chooseOneOfFieldRandomly. cbv zeta.
  assert (0 < len (od_Fields oneOf)) as Hlen.
  { unfold len. destruct (od_Fields oneOf); [done|cbn; lia]. }
  case_decide as Hone.
  - destruct (Get_in_range (od_Fields oneOf) 0 p) as (fd & Hfd & Hget); [lia|].
    exists fd, p. split; [done|]. split; [by eapply list_elem_of_lookup_2|].
    split; [|intros ?; lia]. intros _. split; [|done].
    unfold len in *. destruct (od_Fields oneOf) as [|fd0 [|fd1 rest]];
      [done| |cbn in Hone; lia].
    cbn in Hfd. by injection Hfd as ->.
  - destruct (randIntn_run (len (od_Fields oneOf)) p) as [Hrun Hrange]; [lia|].
    destruct (Get_in_range (od_Fields oneOf) _
                (mkProtoRand (Intn (len (od_Fields oneOf)) (rand p)).2) Hrange)
      as (fd & Hfd & Hget).
    exists fd, (mkProtoRand (Intn (len (od_Fields oneOf)) (rand p)).2).
    split; [by erewrite bind_Ok_run by exact Hrun|].
    split; [by eapply list_elem_of_lookup_2|].
    split; [intros ?; lia|done].
Qed.

(** ** Gen *)

Section GenFacts.
Context `{RandSource} `{ProtoReflect} `{!GoMessages}.


Lemma Gen_Err_iff inp p e p' :
  Gen inp p = (Err e, p')
  ↔ NewDynamicProtoRand (gm_Descriptor inp) p = (Err e, p').
Proof.
  unfold Gen. cbv zeta. split.
  - by intros [Hrun|(dm & p1 & _ & [=])]%bind_Err_inv.
  - intros Hrun. by erewrite bind_Err_run by exact Hrun.
Qed.

End GenFacts.


(** X11. [Gen] returns an error exactly when the traversal of the
    descriptor of its input, at the budget of sixteen, hands
    [getRandValue] a descriptor whose kind has no dispatch entry; the
    error is [UnsupportedFieldKind] of that kind, the generator is left
    in the state in which the kind was met, and nothing is converted. *)
Theorem Gen_fails_iff_unsupported_kind `{RandSource} `{ProtoReflect}
    `{!GoMessages} (inp : GoMessage) (p p' : ProtoRand) (e : error) :
  Gen inp p = (Err e, p')
  ↔ ∃ vfd, Dispatches (gm_Descriptor inp) 16 p vfd p'
           ∧ hasDispatchEntry (fd_Kind vfd) = false
           ∧ e = UnsupportedFieldKind (fd_Kind vfd).
Proof.
  rewrite Gen_Err_iff. unfold NewDynamicProtoRand, MaxDepth. split.
  - by apply (fails_Dispatches_unsupported (Z.to_nat 16)).
  - intros (vfd & Hdisp & Hentry & ->). by apply Dispatches_unsupported_fails.
Qed.

(** ** The bound handed to Intn *)

Section IntnFacts.
Context `{RandSource} `{ProtoReflect}.

Lemma intnPanic_randIntn n : 0 < n → avoids intnPanic (randIntn n).
Proof.
  intros Hn. unfold randIntn. rewrite decide_False by lia. apply avoids_draw.
Qed.

Lemma intnPanic_Get {A} (l : list A) i : avoids intnPanic (Get l i).
Proof.
  unfold Get. case_decide; [by apply avoids_gopanic|].
  destruct (l !! Z.to_nat i); [apply avoids_ret|by apply avoids_gopanic].
Qed.

Lemma intnPanic_randString : avoids intnPanic randString.
Proof.
  apply avoids_bind; [|intros b; apply avoids_ret].
  generalize 10%nat. intros n. induction n as [|n IH]; cbn [randRunes];
    [apply avoids_ret|].
  apply avoids_bind; [by apply intnPanic_randIntn; rewrite len_Chars|]. intros i.
  apply avoids_bind; [apply intnPanic_Get|]. intros c.
  apply avoids_bind; [apply IH|]. intros b. apply avoids_ret.
Qed.

(** The guard [ln <= 1] keeps [ln - 1] positive where it is drawn from. *)
Lemma intnPanic_chooseEnumValueRandomly values :
  avoids intnPanic (chooseEnumValueRandomly values).
Proof.
  unfold chooseEnumValueRandomly. cbv zeta.
  case_decide; [apply avoids_ret|].
  apply avoids_bind; [apply intnPanic_randIntn; lia|]. intros i.
  apply avoids_bind; [apply intnPanic_Get|]. intros v. apply avoids_ret.
Qed.

Lemma intnPanic_chooseOneOfFieldRandomly oneOf :
  avoids intnPanic (chooseOneOfFieldRandomly oneOf).
Proof.
  unfold chooseOneOfFieldRandomly. cbv zeta.
  case_decide; [apply intnPanic_Get|].
  apply avoids_bind; [apply intnPanic_randIntn; lia|]. intros i.
  apply intnPanic_Get.
Qed.

Lemma intnPanic_chooseOneOfs oneOfs sel : avoids intnPanic (chooseOneOfs oneOfs sel).
Proof.
  revert sel. induction oneOfs as [|o rest IH]; intros sel; cbn [chooseOneOfs].
  - apply avoids_ret.
  - apply avoids_bind; [apply intnPanic_chooseOneOfFieldRandomly|].
    intros fd. apply IH.
Qed.

Lemma intnPanic_getRandValue self d fd :
  (∀ m, avoids intnPanic (self m (d - 1))) →
  avoids intnPanic (getRandValue self d fd).
Proof.
  intros Hself. unfold getRandValue.
  destruct (fd_Kind fd);
    try (apply avoids_fmap;
         first [apply avoids_draw
               |apply intnPanic_randString
               |apply intnPanic_chooseEnumValueRandomly]).
  - apply avoids_fmap, avoids_bind; [apply avoids_draw|].
    intros v. apply avoids_ret.
  - apply avoids_fmap, avoids_bind; [apply intnPanic_randString|].
    intros s. apply avoids_ret.
  - case_decide; [|apply avoids_ret].
    apply avoids_bind; [apply Hself|]. intros rm. apply avoids_ret.
  - by apply avoids_throw.
Qed.

Lemma intnPanic_populateField gv sel fd dm :
  (∀ fd', avoids intnPanic (gv fd')) →
  avoids intnPanic (populateField gv sel fd dm).
Proof.
  intros Hgv. unfold populateField.
  assert (∀ v, avoids intnPanic (Value_List v)) as HList
    by (intros []; first [apply avoids_ret | by apply avoids_gopanic]).
  assert (∀ v, avoids intnPanic (Value_Map v)) as HMap
    by (intros []; first [apply avoids_ret | by apply avoids_gopanic]).
  assert (∀ v, avoids intnPanic (Value_MapKey v)) as HKey
    by (intros []; first [apply avoids_ret | by apply avoids_gopanic]).
  destruct (skipped sel fd); [apply avoids_ret|].
  destruct (fd_IsList fd).
  { destruct (Mutable dm fd) as [lv dm1].
    apply avoids_bind; [apply HList|]. intros l.
    apply avoids_bind; [apply Hgv|]. intros v. apply avoids_ret. }
  destruct (fd_IsMap fd).
  { destruct (Mutable dm fd) as [mv dm1].
    apply avoids_bind; [apply HMap|]. intros mp.
    apply avoids_bind; [apply Hgv|]. intros key.
    apply avoids_bind; [apply Hgv|]. intros v.
    apply avoids_bind; [apply HKey|]. intros k. apply avoids_ret. }
  apply avoids_bind; [apply Hgv|]. intros v. apply avoids_ret.
Qed.

Lemma intnPanic_unroll n : ∀ mds d,
  avoids intnPanic (unroll stackOverflow n mds d).
Proof.
  induction n as [|n IH]; intros mds d; cbn [unroll].
  { by apply avoids_gopanic. }
  unfold newDynamicProtoRandBody.
  apply avoids_bind; [apply intnPanic_chooseOneOfs|]. intros sel.
  generalize (NewMessage mds).
  induction (md_Fields mds) as [|fd rest IHf]; intros dm; cbn [populateFields].
  - apply avoids_ret.
  - apply avoids_bind; [|intros dm'; apply IHf].
    apply intnPanic_populateField. intros fd'.
    apply intnPanic_getRandValue. intros m. apply IH.
Qed.

End IntnFacts.

(** X12. No generation call panics inside [Intn]: whatever the schema,
    also one with enums without values or oneofs without members, the
    bound handed to [Intn] is positive, in [randString], in the enum
    selection and in the oneof selection. *)
Theorem generation_never_panics_in_Intn `{RandSource} `{ProtoReflect}
    (mds : MessageDescriptor) (allowedDepth : Z) (p : ProtoRand)
    (values : list EnumValueDescriptor) (oneOf : OneofDescriptor) :
  (newDynamicProtoRand mds allowedDepth p).1 ≠ Panicked IntnNonPositive
  ∧ (randString p).1 ≠ Panicked IntnNonPositive
  ∧ (chooseEnumValueRandomly values p).1 ≠ Panicked IntnNonPositive
  ∧ (chooseOneOfFieldRandomly oneOf p).1 ≠ Panicked IntnNonPositive.
Proof.
  assert (∀ A (m : M A), avoids intnPanic m →
            (m p).1 ≠ Panicked IntnNonPositive) as Hno.
  { intros A m Hm Hrun. apply (Hm p (inr IntnNonPositive)); [|done].
    by rewrite Hrun. }
  split; [apply Hno, intnPanic_unroll|].
  split; [apply Hno, intnPanic_randString|].
  split; [apply Hno, intnPanic_chooseEnumValueRandomly|].
  apply Hno, intnPanic_chooseOneOfFieldRandomly.
Qed.

(** * The statements on the sample schema *)

Section Samples.
#[local] Existing Instance lcgRand.
#[local] Existing Instance sampleReflect.
#[local] Existing Instance sampleGoMessages.

Lemma Node_wellFormed : wellFormed Node.
Proof.
  apply wellFormed_intro; apply (bool_decide_unpack _); vm_compute; exact I.
Qed.

(** The self-referential [Node]: below the message returned by the
    entry point sixteen more messages are generated along [next]; the
    [next] field of the sixteenth is the empty instance, and nothing
    lies below it. *)
Example self_reference_is_cut_at_sixteen :
  match NewDynamicProtoRand Node seeded with
  | (Ok dm, _) =>
      Some (size ∘ known <$> descend 2 16 dm, descend 2 17 dm, descend 2 18 dm)
  | _ => None
  end = Some (Some 5%nat, Some (NewMessage Node), None).
Proof. vm_compute. reflexivity. Qed.

(** Without [Seed] the result depends on the generator one starts from. *)
Example unseeded_runs_differ :
  (NewDynamicProtoRand Node (New 1)).2 ≠ (NewDynamicProtoRand Node (New 2)).2.
Proof. vm_compute. intros [=]. Qed.

Lemma nested_message_depth_rule_witness :
  fd_Kind nextField = MessageKind
  ∧ getRandValue newDynamicProtoRand 0 nextField seeded
      = (Ok (ValueOfMessage (NewMessage Node)), seeded)
  ∧ NewDynamicProtoRand Node seeded = newDynamicProtoRand Node 16 seeded
  ∧ known (generated Node 0) !! fd_Number nextField
      = Some (ValueOfMessage (NewMessage (fd_Message nextField))).
Proof.
  split; [reflexivity|].
  destruct (nested_message_depth_rule Node 0 nextField seeded nodeInput eq_refl)
    as (_ & _ & Hzero & _ & Hentry & _ & Hstored).
  split; [apply Hzero; reflexivity|]. split; [exact Hentry|].
  apply (Hstored (generated Node 0) (newDynamicProtoRand Node 0 seeded).2);
    [vm_compute; reflexivity
    |apply Node_wellFormed
    |apply (bool_decide_unpack _); vm_compute; exact I
    |reflexivity..].
Defined.

Lemma generation_terminates_witness :
  (Z.to_nat 16 < 20)%nat
  ∧ unroll stackOverflow 20 Node 16 seeded = newDynamicProtoRand Node 16 seeded
  ∧ ∃ o p', newDynamicProtoRand Node 16 seeded = (o, p')
            ∧ o ≠ Panicked StackOverflow.
Proof.
  assert (Z.to_nat 16 < 20)%nat as Hfuel by (vm_compute; lia).
  split; [exact Hfuel|].
  destruct (generation_terminates Node 16 seeded stackOverflow 20 Hfuel)
    as (Hunroll & _ & _ & Hresult).
  split; [exact Hunroll|exact Hresult].
Defined.

Lemma enum_selection_excludes_last_witness :
  2 ≤ len colorValues
  ∧ ∃ i v p', chooseEnumValueRandomly colorValues seeded = (Ok (ev_Number v), p')
              ∧ 0 ≤ i ≤ 1
              ∧ colorValues !! Z.to_nat i = Some v
              ∧ ev_Number v ≠ 2.
Proof.
  assert (2 ≤ len colorValues) as Hlen by (vm_compute; discriminate).
  split; [exact Hlen|].
  destruct (enum_selection_excludes_last colorValues seeded Hlen)
    as (i & v & Hrun & _ & Hrange & Hv & _ & Hlast).
  exists i, v, (mkProtoRand (Intn (len colorValues - 1) (rand seeded)).2).
  split; [exact Hrun|]. split; [exact Hrange|]. split; [exact Hv|].
  apply (Hlast ltac:(apply (bool_decide_unpack _); vm_compute; exact I) 2).
  reflexivity.
Defined.

Lemma enum_selection_small_witness :
  len onlyValues ≤ 1 ∧ chooseEnumValueRandomly onlyValues seeded = (Ok 0, seeded).
Proof.
  assert (len onlyValues ≤ 1) as Hlen by (vm_compute; discriminate).
  split; [exact Hlen|]. exact (enum_selection_small onlyValues seeded Hlen).
Defined.

(** C9 as the specification words it fails on an enum whose only
    declared value is not numbered [0]: the value at index [0] is [5],
    the selection returns [0]. *)
Lemma enum_single_value_counterexample :
  len onlyValues ≤ 1
  ∧ onlyValues !! 0%nat = Some 5
  ∧ chooseEnumValueRandomly onlyValues seeded = (Ok 0, seeded)
  ∧ ¬ ∃ v, onlyValues !! 0%nat = Some v
           ∧ chooseEnumValueRandomly onlyValues seeded
               = (Ok (ev_Number v), seeded).
Proof.
  split; [vm_compute; discriminate|]. split; [reflexivity|].
  split; [reflexivity|].
  intros (v & [= <-] & Hrun). vm_compute in Hrun. discriminate.
Qed.

(** Generated from the entry point, the field of [Flagged] whose enum
    declares the single value [ONLY = 5] holds the enum number [0]. *)
Example flagged_enum_is_zero :
  known (generated Flagged 16) !! 1 = Some (ValueOfEnum 0).
Proof. vm_compute. reflexivity. Qed.

Lemma signed_draws_are_non_negative_witness :
  fd_Kind idField ∈ [Int32Kind; Sint32Kind; Sfixed32Kind]
  ∧ getRandValue newDynamicProtoRand 16 idField seeded
      = (ValueOfInt32 <$> randInt32) seeded
  ∧ ∃ v p', randInt32 seeded = (Ok v, p') ∧ 0 ≤ v < 2 ^ 31.
Proof.
  assert (fd_Kind idField ∈ [Int32Kind; Sint32Kind; Sfixed32Kind]) as Hkind
    by left.
  split; [exact Hkind|].
  destruct (signed_draws_are_non_negative newDynamicProtoRand 16 idField seeded)
    as (H32 & _ & Hsigned32 & _).
  split; [exact (Hsigned32 Hkind)|exact H32].
Defined.

(** C8 as the specification words it fails at [-1]: a value of the
    signed 32-bit (64-bit) type that no state of the generator makes
    [randInt32] ([randInt64]) return. *)
Lemma signed_draw_negative_counterexample :
  (- 2 ^ 31 ≤ -1 < 2 ^ 31 ∧ ¬ ∃ p : ProtoRand, (randInt32 p).1 = Ok (-1))
  ∧ (- 2 ^ 63 ≤ -1 < 2 ^ 63 ∧ ¬ ∃ p : ProtoRand, (randInt64 p).1 = Ok (-1)).
Proof.
  split; (split; [lia|]); intros [p Hp].
  - unfold randInt32 in Hp. rewrite draw_run in Hp. injection Hp as Hv.
    pose proof (Z.mod_pos_bound (lcgNext (rand p) / 2 ^ 33) (2 ^ 31) eq_refl)
      as [Hr _].
    assert (0 ≤ -1) as Habs by (rewrite <- Hv; exact Hr). lia.
  - unfold randInt64 in Hp. rewrite draw_run in Hp. injection Hp as Hv.
    pose proof (Z.mod_pos_bound (lcgNext (rand p) / 2 ^ 1) (2 ^ 63) eq_refl)
      as [Hr _].
    assert (0 ≤ -1) as Habs by (rewrite <- Hv; exact Hr). lia.
Qed.

Lemma empty_oneof_panics_witness :
  nothing ∈ md_Oneofs Hollow
  ∧ od_Fields nothing = []
  ∧ ∃ p', newDynamicProtoRand Hollow 16 seeded = (Panicked IndexOutOfRange, p').
Proof.
  assert (nothing ∈ md_Oneofs Hollow) as Hin by left.
  assert (od_Fields nothing = []) as Hnil by reflexivity.
  split; [exact Hin|]. split; [exact Hnil|].
  destruct (empty_oneof_panics Hollow 16 seeded nothing Hin Hnil)
    as (_ & _ & Hrun).
  exact Hrun.
Defined.

Lemma oneof_exactly_one_member_witness :
  ∃ fd, fd ∈ od_Fields choice
        ∧ Has (generated Node 1) fd
        ∧ ∀ fd', fd' ∈ od_Fields choice → Has (generated Node 1) fd' → fd' = fd.
Proof.
  apply (oneof_exactly_one_member Node 1 seeded
           (newDynamicProtoRand Node 1 seeded).2 (generated Node 1) choice).
  - exact Node_wellFormed.
  - vm_compute. reflexivity.
  - left.
  - vm_compute. discriminate.
Defined.

Lemma collections_hold_one_element_witness :
  (∃ x, known (generated Node 1) !! fd_Number tagsField = Some (ValueOfList [x]))
  ∧ (∃ k x, known (generated Node 1) !! fd_Number attrsField
              = Some (ValueOfMap {[k := x]})
            ∧ size ({[k := x]} : gmap MapKey Value) = 1%nat).
Proof.
  assert (NoDup (fd_Number <$> md_Fields Node)) as Hnums
    by apply Node_wellFormed.
  assert (newDynamicProtoRand Node 1 seeded
          = (Ok (generated Node 1), (newDynamicProtoRand Node 1 seeded).2))
    as Hrun by (vm_compute; reflexivity).
  split.
  - apply (collections_hold_one_element Node 1 seeded _ _ tagsField Hnums Hrun);
      [apply (bool_decide_unpack _); vm_compute; exact I|reflexivity..].
  - apply (collections_hold_one_element Node 1 seeded _ _ attrsField Hnums Hrun);
      [apply (bool_decide_unpack _); vm_compute; exact I|reflexivity..].
Defined.

Lemma generation_fails_iff_unsupported_kind_witness :
  newDynamicProtoRand Legacy 16 seeded
    = (Err (UnsupportedFieldKind GroupKind), (newDynamicProtoRand Legacy 16 seeded).2)
  ∧ ∃ vfd, Dispatches Legacy 16 seeded vfd (newDynamicProtoRand Legacy 16 seeded).2
           ∧ hasDispatchEntry (fd_Kind vfd) = false
           ∧ UnsupportedFieldKind GroupKind = UnsupportedFieldKind (fd_Kind vfd).
Proof.
  assert (newDynamicProtoRand Legacy 16 seeded
          = (Err (UnsupportedFieldKind GroupKind),
             (newDynamicProtoRand Legacy 16 seeded).2))
    as Hrun by (vm_compute; reflexivity).
  split; [exact Hrun|].
  exact (proj1 (generation_fails_iff_unsupported_kind Legacy 16 seeded _ _) Hrun).
Defined.

End Samples.

(** * The further properties on the sample schema *)

Section MoreSamples.
#[local] Existing Instance lcgRand.
#[local] Existing Instance sampleReflect.
#[local] Existing Instance sampleGoMessages.

Lemma onlyNode_closed : closedUnder onlyNode.
Proof.
  intros m ->. split; [split; [|split]|];
    apply (bool_decide_unpack _); vm_compute; exact I.
Qed.

Lemma getRandValue_value_fits_kind_witness :
  valueFits idField (drawnValue idField)
  ∧ valueFits nextField (drawnValue nextField).
Proof.
  split.
  - apply (getRandValue_value_fits_kind 16 idField seeded
             (getRandValue newDynamicProtoRand 16 idField seeded).2).
    vm_compute. reflexivity.
  - apply (getRandValue_value_fits_kind 16 nextField seeded
             (getRandValue newDynamicProtoRand 16 nextField seeded).2).
    vm_compute. reflexivity.
Defined.

Lemma generated_fields_fit_witness :
  storedFits tagsField (storedValue Node 1 3)
  ∧ storedFits attrsField (storedValue Node 1 4).
Proof.
  assert (NoDup (fd_Number <$> md_Fields Node)) as Hnums
    by (apply (bool_decide_unpack _); vm_compute; exact I).
  assert (newDynamicProtoRand Node 1 seeded
          = (Ok (generated Node 1), (newDynamicProtoRand Node 1 seeded).2))
    as Hrun by (vm_compute; reflexivity).
  split.
  - apply (generated_fields_fit Node 1 seeded _ _ tagsField _ Hnums Hrun);
      [apply (bool_decide_unpack _); vm_compute; exact I
      |vm_compute; reflexivity].
  - apply (generated_fields_fit Node 1 seeded _ _ attrsField _ Hnums Hrun);
      [apply (bool_decide_unpack _); vm_compute; exact I
      |vm_compute; reflexivity].
Defined.

Lemma generated_message_is_schema_shaped_witness :
  typ (generated Node 1) = Node
  ∧ (∀ n, is_Some (known (generated Node 1) !! n) →
       ∃ fd, fd ∈ md_Fields Node ∧ fd_Number fd = n)
  ∧ (∀ fd, fd ∈ md_Fields Node → fd_ContainingOneof fd = None →
       is_Some (known (generated Node 1) !! fd_Number fd)).
Proof.
  apply (generated_message_is_schema_shaped Node 1 seeded
           (newDynamicProtoRand Node 1 seeded).2).
  vm_compute. reflexivity.
Defined.

Lemma generation_succeeds_on_healthy_schema_witness :
  ∃ dm p', newDynamicProtoRand Node 16 seeded = (Ok dm, p').
Proof.
  apply (generation_succeeds_on_healthy_schema onlyNode Node 16 seeded).
  - exact onlyNode_closed.
  - reflexivity.
Defined.

Lemma generated_nesting_is_bounded_witness :
  descendPath [2; 2; 2] (generated Node 1) = None.
Proof.
  apply (generated_nesting_is_bounded Node 1 seeded
           (newDynamicProtoRand Node 1 seeded).2).
  - vm_compute. reflexivity.
  - vm_compute. lia.
Defined.

(** The bound is met: two steps along [next] from the message generated
    at budget one still find a message. *)
Example nesting_bound_is_met :
  descendPath [2; 2] (generated Node 1) = Some (NewMessage Node).
Proof. vm_compute. reflexivity. Qed.

Lemma flat_schema_ignores_budget_witness :
  newDynamicProtoRand Flagged 0 seeded = newDynamicProtoRand Flagged 16 seeded.
Proof.
  apply (flat_schema_ignores_budget Flagged 0 16 seeded).
  apply (bool_decide_unpack _). vm_compute. exact I.
Defined.

Lemma oneof_selection_returns_member_witness :
  ∃ fd p', chooseOneOfFieldRandomly choice seeded = (Ok fd, p')
           ∧ fd ∈ od_Fields choice.
Proof.
  destruct (oneof_selection_returns_member choice seeded)
    as (fd & p' & Hrun & Hin & _).
  - vm_compute. discriminate.
  - exists fd, p'. split; [exact Hrun|exact Hin].
Defined.


Lemma Gen_fails_iff_unsupported_kind_witness :
  Gen legacyInput seeded
    = (Err (UnsupportedFieldKind GroupKind), (Gen legacyInput seeded).2)
  ∧ ∃ vfd, Dispatches (gm_Descriptor legacyInput) 16 seeded vfd
             (Gen legacyInput seeded).2
           ∧ hasDispatchEntry (fd_Kind vfd) = false
           ∧ UnsupportedFieldKind GroupKind = UnsupportedFieldKind (fd_Kind vfd).
Proof.
  assert (Gen legacyInput seeded
          = (Err (UnsupportedFieldKind GroupKind), (Gen legacyInput seeded).2))
    as Hrun by (vm_compute; reflexivity).
  split; [exact Hrun|].
  exact (proj1 (Gen_fails_iff_unsupported_kind legacyInput seeded _ _) Hrun).
Defined.

End MoreSamples.
